(** * Primel solver: feedback evaluation, candidate filtering, guess selection

    A shallow embedding of the Go sources [main.go] (simulation heuristic) and
    its sibling file (frequency heuristic), and the properties of the
    specification checked against them.

    Conventions of the embedding.
    - Go's [uint] and [uint64] are modelled by [N]; the accumulating additions
      are written with their wrap-around, [wrap64].
    - A slice is a [list]; a loop counter that runs over the indices of a
      slice is a [nat], and the conversion [uint(i)] is [N.of_nat i]. The
      [int] arithmetic of the sieve, which can leave the range of [int], is
      on [Z] with its wrap-around, [wrapInt].
    - A run-time panic and [os.Exit] are results of type [outcome]. The limit
      of the memory is not modelled.
    - Standard input is the list of the lines the reader of one call reads;
      what the program prints is not modelled. *)

From Stdlib Require Import ZArith NArith List Lia Sorted.
From stdpp Require Import base option list numbers gmap strings.

Local Open Scope N_scope.

(** ** Outcomes of a Go call: a value, a run-time panic, or [os.Exit code] *)

Inductive outcome (A : Type) : Type :=
| Ok (a : A)
| Panic
| Exit (code : Z).
Arguments Ok {A} a.
Arguments Panic {A}.
Arguments Exit {A} code.

#[global] Instance outcome_ret : MRet outcome := fun A a => Ok a.
#[global] Instance outcome_bind : MBind outcome := fun A B f m =>
  match m with
  | Ok a => f a
  | Panic => Panic
  | Exit c => Exit c
  end.

(** [s[i]] on a slice: Go panics when the index is out of range. *)
Definition index {A : Type} (s : list A) (i : nat) : outcome A :=
  match s !! i with
  | Some a => Ok a
  | None => Panic
  end.

(** Arithmetic of [uint64]. *)
Definition wrap64 (x : N) : N := x mod 2 ^ 64.

(** The conversion [int(x)] of a [uint]: values from [2^63] on are negative. *)
Definition int_of_uint (x : N) : Z :=
  if x <? 2 ^ 63 then Z.of_N x else Z.of_N x - 2 ^ 64.

(** ** Digit codec *)

(** The loop body of [getDigits], run [count] times. *)
Fixpoint getDigits_loop (count : nat) (num : N) (result : list N) : list N :=
  match count with
  | O => result
  | S count' => getDigits_loop count' (num / 10) (result ++ [num mod 10])
  end.

(** [for i := 0; i < int(numberOfDigits); i++]: no iteration when the bound is
    not positive. *)
Definition getDigits (num : N) (numberOfDigits : N) : list N :=
  getDigits_loop (Z.to_nat (int_of_uint numberOfDigits)) num [].

(** ** Feedback *)

Definition feedbackType := N.
Definition feedbackTypeAbsent : feedbackType := 0.
Definition feedbackTypePresent : feedbackType := 1.
Definition feedbackTypeCorrect : feedbackType := 2.

Record feedback : Type := mkFeedback { digit : N; fbType : feedbackType }.

(** The zero value of the struct, as [make([]feedback, n)] fills it in. *)
Definition feedback_zero : feedback := mkFeedback 0 feedbackTypeAbsent.

#[global] Instance feedback_inhabited : Inhabited feedback := populate feedback_zero.

#[global] Instance feedback_eq_dec : EqDecision feedback.
Proof. solve_decision. Defined.

(** ** Feedback evaluator ([getFeedbackPerDigit]) *)

(** First loop: positions where guess and solution agree are marked Correct. *)
Definition markCorrect (guessDigits possibleSolutionDigits : list N)
    (feedbackPerDigit : list feedback) (i : nat) : list feedback :=
  if decide (guessDigits !!! i = possibleSolutionDigits !!! i)
  then <[i := mkFeedback (guessDigits !!! i) feedbackTypeCorrect]> feedbackPerDigit
  else feedbackPerDigit.

(** Inner loop of the second pass, over the remaining solution positions [js]:
    [continue] on a Correct-marked position, [break] on the first match, and
    the Absent assignment in the branch reached at the last index only. *)
Fixpoint scanSolution (guessDigits possibleSolutionDigits : list N) (i : nat)
    (js : list nat) (feedbackPerDigit : list feedback) : list feedback :=
  match js with
  | [] => feedbackPerDigit
  | j :: js' =>
    if decide (fbType (feedbackPerDigit !!! j) = feedbackTypeCorrect) then
      scanSolution guessDigits possibleSolutionDigits i js' feedbackPerDigit
    else if decide (possibleSolutionDigits !!! j = guessDigits !!! i) then
      <[i := mkFeedback (guessDigits !!! i) feedbackTypePresent]> feedbackPerDigit
    else if decide (j = (length possibleSolutionDigits - 1)%nat) then
      scanSolution guessDigits possibleSolutionDigits i js'
        (<[i := mkFeedback (guessDigits !!! i) feedbackTypeAbsent]> feedbackPerDigit)
    else
      scanSolution guessDigits possibleSolutionDigits i js' feedbackPerDigit
  end.

(** Body of the second loop. *)
Definition markRemaining (guessDigits possibleSolutionDigits : list N)
    (feedbackPerDigit : list feedback) (i : nat) : list feedback :=
  if decide (fbType (feedbackPerDigit !!! i) = feedbackTypeCorrect)
  then feedbackPerDigit
  else scanSolution guessDigits possibleSolutionDigits i
         (seq 0 (length possibleSolutionDigits)) feedbackPerDigit.

Definition getFeedbackPerDigit (guessDigits possibleSolutionDigits : list N)
    : outcome (list feedback) :=
  if decide (length guessDigits ≠ length possibleSolutionDigits) then Panic
  else
    let n := length guessDigits in
    let feedbackPerDigit := replicate n feedback_zero in
    let feedbackPerDigit :=
      foldl (markCorrect guessDigits possibleSolutionDigits) feedbackPerDigit (seq 0 n) in
    let feedbackPerDigit :=
      foldl (markRemaining guessDigits possibleSolutionDigits) feedbackPerDigit (seq 0 n) in
    Ok feedbackPerDigit.

(** ** Slice helpers ([filter], [contains]) *)

(** [filter] keeps, in order, the elements on which the predicate returns
    true; a panic inside the predicate ends the call. *)
Fixpoint filter (slice : list N) (predicate : N → outcome bool) : outcome (list N) :=
  match slice with
  | [] => Ok []
  | x :: rest =>
    keep ← predicate x;
    newSlice ← filter rest predicate;
    Ok (if keep : bool then x :: newSlice else newSlice)
  end.

Fixpoint contains (slice : list N) (elem : N) : bool :=
  match slice with
  | [] => false
  | x :: rest => if decide (x = elem) then true else contains rest elem
  end.

(** A [for i := 0; i < len(xs); i++] loop whose body may fail and reads the
    loop state and [i] (or [xs[i]]) only: [xs] is what is still to visit. *)
Fixpoint forRange {S A : Type} (xs : list A) (body : S → A → outcome S) (s : S)
    : outcome S :=
  match xs with
  | [] => Ok s
  | x :: rest => s' ← body s x; forRange rest body s'
  end.

(** ** Candidate filter ([incorporateFeedback]) *)

(** Predicate of a Correct position: [getDigits(candidate, 5)[i] == digit]. *)
Definition correctPredicate (f : feedback) (i : nat) (candidate : N) : outcome bool :=
  d ← index (getDigits candidate 5) i;
  Ok (bool_decide (d = digit f)).

(** Predicate of a Present position: the [range] loop over the candidate's
    digits, [index] counting from the position of the head of [digits]. *)
Fixpoint presentLoop (f : feedback) (i : nat) (correctPositions : list N)
    (index : nat) (digits : list N) : bool :=
  match digits with
  | [] => false
  | d :: rest =>
    if bool_decide (d = digit f) && bool_decide (index ≠ i)
       && negb (contains correctPositions (N.of_nat index))
    then true
    else presentLoop f i correctPositions (S index) rest
  end.

Definition presentPredicate (f : feedback) (i : nat) (correctPositions : list N)
    (candidate : N) : outcome bool :=
  Ok (presentLoop f i correctPositions 0 (getDigits candidate 5)).

(** Predicate of an Absent position. *)
Fixpoint absentLoop (f : feedback) (correctPositions : list N)
    (index : nat) (digits : list N) : bool :=
  match digits with
  | [] => true
  | d :: rest =>
    if bool_decide (d = digit f) && negb (contains correctPositions (N.of_nat index))
    then false
    else absentLoop f correctPositions (S index) rest
  end.

Definition absentPredicate (f : feedback) (correctPositions : list N)
    (candidate : N) : outcome bool :=
  Ok (absentLoop f correctPositions 0 (getDigits candidate 5)).

(** State of the two loops: [newCandidates] and [correctPositions]. *)
Definition correctStep (feedbackPerDigit : list feedback)
    (st : list N * list N) (i : nat) : outcome (list N * list N) :=
  let '(newCandidates, correctPositions) := st in
  if decide (fbType (feedbackPerDigit !!! i) = feedbackTypeCorrect) then
    newCandidates ← filter newCandidates (correctPredicate (feedbackPerDigit !!! i) i);
    Ok (newCandidates, correctPositions ++ [N.of_nat i])
  else Ok st.

Definition switchStep (feedbackPerDigit : list feedback) (correctPositions : list N)
    (newCandidates : list N) (i : nat) : outcome (list N) :=
  let f := feedbackPerDigit !!! i in
  if decide (fbType f = feedbackTypeCorrect) then Ok newCandidates
  else if decide (fbType f = feedbackTypePresent) then
    filter newCandidates (presentPredicate f i correctPositions)
  else if decide (fbType f = feedbackTypeAbsent) then
    filter newCandidates (absentPredicate f correctPositions)
  else Exit 2.

Definition incorporateFeedback (feedbackPerDigit : list feedback) (candidates : list N)
    : outcome (list N) :=
  let positions := seq 0 (length feedbackPerDigit) in
  '(newCandidates, correctPositions) ←
    forRange positions (correctStep feedbackPerDigit) (candidates, []);
  forRange positions (switchStep feedbackPerDigit correctPositions) newCandidates.

(** ** Prime generator ([sieve], [getPrimes]) *)

(** Arithmetic of [int]: 64 bits, two's complement. *)
Definition wrapInt (z : Z) : Z := ((z + 2 ^ 63) mod 2 ^ 64 - 2 ^ 63)%Z.

(** The conversion [uint(z)] of an [int]. *)
Definition uint_of_int (z : Z) : N := Z.to_N (z mod 2 ^ 64).

(** Inner loop [for j := (i+2)*2 - 2; j < len(candidates); j += i + 2], with
    [j] and [step] of type [int]. A negative [j], which only an overflow can
    give, passes the test [j < len(candidates)] and makes [candidates[j]]
    panic. Each other turn advances [j], so [length candidates] turns
    suffice. *)
Fixpoint markMultiples (fuel : nat) (j step : Z) (candidates : list bool)
    : outcome (list bool) :=
  match fuel with
  | O => Ok candidates
  | S fuel' =>
    if decide (j < Z.of_nat (length candidates))%Z then
      if decide (0 ≤ j)%Z
      then markMultiples fuel' (wrapInt (j + step)) step
             (<[Z.to_nat j := false]> candidates)
      else Panic
    else Ok candidates
  end.

(** Outer loop, over the indices [is_] still to visit. *)
Fixpoint sieveLoop (is_ : list nat) (candidates : list bool) (primes : list N)
    : outcome (list N) :=
  match is_ with
  | [] => Ok primes
  | i :: rest =>
    if (candidates !!! i : bool) then
      let value := wrapInt (Z.of_nat i + 2) in
      let primes := primes ++ [uint_of_int value] in
      candidates ← markMultiples (length candidates)
                     (wrapInt (wrapInt (value * 2) - 2)) value candidates;
      sieveLoop rest candidates primes
    else sieveLoop rest candidates primes
  end.

(** [make([]bool, max-2)] panics when the length does not fit [int]. *)
Definition sieve (max : N) : outcome (list N) :=
  if decide (max < 2) then Ok []
  else if decide (2 ^ 63 ≤ max - 2) then Panic
  else
    let candidates := replicate (N.to_nat (max - 2)) true in
    sieveLoop (seq 0 (length candidates)) candidates [].

Definition getPrimes (from to : N) : outcome (list N) :=
  primesTo ← sieve to;
  Ok (List.filter (λ p, bool_decide (from ≤ p)) primesTo).

(** ** Reading the feedback ([all], [readFeedbackForDigits]) *)

Fixpoint all (slice : list feedback) (predicate : feedback → bool) : bool :=
  match slice with
  | [] => true
  | f :: rest => if predicate f then all rest predicate else false
  end.

(** The retry loop for one position. [stdin] holds the lines still to be
    read, each without its newline ([ReadString] up to the newline, then
    [TrimSuffix]). A line other than [c], [p], [a] is reported and the next
    one is read. At the end of the input [ReadString] returns the empty text
    for ever (its error is dropped), so the loop never ends: no result. *)
Fixpoint readToken (guessDigit : N) (stdin : list string)
    : option (feedback * list string) :=
  match stdin with
  | [] => None
  | text :: rest =>
    if decide (text = "c") then Some (mkFeedback guessDigit feedbackTypeCorrect, rest)
    else if decide (text = "p") then Some (mkFeedback guessDigit feedbackTypePresent, rest)
    else if decide (text = "a") then Some (mkFeedback guessDigit feedbackTypeAbsent, rest)
    else readToken guessDigit rest
  end.

(** The loop [for i := len(guessDigits) - 1; i >= 0; i--], over the positions
    [is_] still to ask for. *)
Fixpoint readFeedbackLoop (guessDigits : list N) (is_ : list nat)
    (result : list feedback) (stdin : list string)
    : option (list feedback * list string) :=
  match is_ with
  | [] => Some (result, stdin)
  | i :: rest =>
    '(f, stdin) ← readToken (guessDigits !!! i) stdin;
    readFeedbackLoop guessDigits rest (<[i := f]> result) stdin
  end.

(** One call, on the lines [stdin] that its reader reads. The reader is made
    by the call ([bufio.NewReader(os.Stdin)]) and dropped when it returns,
    with whatever it has read ahead: the call returns the report alone. *)
Definition readFeedbackForDigits (guessDigits : list N) (stdin : list string)
    : option (list feedback) :=
  let result := replicate (length guessDigits) feedback_zero in
  fst <$> readFeedbackLoop guessDigits (reverse (seq 0 (length guessDigits))) result stdin.

(** How one turn of the loop of [main] ends: with the solution found (the
    [break], then exit code 0), or with the candidates and the guess of the
    next turn. [os.Exit(1)] is the outcome [Exit 1]. *)
Inductive roundResult : Type :=
| Solved (bestGuess : N)
| NextRound (candidates : list N) (bestGuess : N).

(** ** Guess selection, simulation heuristic ([main.go]) *)

Module Simulation.

(** The goroutines of [evaluateGuess] only add to one atomic counter and the
    call waits for all of them, so the result is the sum in any order. *)
Definition evaluateGuess (guess : N) (candidates : list N) : outcome N :=
  forRange candidates (λ remainingCandidatesAfterGuess possibleSolution,
    feedbackPerDigit ←
      getFeedbackPerDigit (getDigits guess 5) (getDigits possibleSolution 5);
    newCandidates ← incorporateFeedback feedbackPerDigit candidates;
    Ok (wrap64 (remainingCandidatesAfterGuess + N.of_nat (length newCandidates)))) 0.

(** [bestGuessValue] is declared and never assigned: it stays 0. *)
Definition findBestGuess (candidates : list N) : outcome N :=
  let bestGuessValue := 0 in
  forRange candidates (λ bestGuess candidateGuess,
    guessValue ← evaluateGuess candidateGuess candidates;
    Ok (if decide (bestGuessValue < guessValue) then candidateGuess else bestGuess)) 0.

(** [main] up to its loop: the candidates and the first guess. *)
Definition mainStart : outcome (list N * N) :=
  candidates ← getPrimes 10000 100000;
  bestGuess ← findBestGuess candidates;
  Ok (candidates, bestGuess).

(** One turn of the loop of [main], from the report that
    [readFeedbackForDigits] returned for [bestGuess]. *)
Definition mainRound (candidates : list N) (bestGuess : N)
    (feedbackPerDigit : list feedback) : outcome roundResult :=
  if all feedbackPerDigit (λ f, bool_decide (fbType f = feedbackTypeCorrect))
  then Ok (Solved bestGuess)
  else
    candidates ← incorporateFeedback feedbackPerDigit candidates;
    if decide (length candidates = 0%nat) then Exit 1
    else
      bestGuess ← findBestGuess candidates;
      Ok (NextRound candidates bestGuess).

End Simulation.

(** ** Guess selection, frequency heuristic (sibling source file) *)

Module Frequency.

(** [result[j][d]++]; a key that is not in the map reads as 0. *)
Definition increment (result : list (gmap N N)) (j : nat) (d : N) : list (gmap N N) :=
  let m := result !!! j in
  <[j := <[d := wrap64 (default 0 (m !! d) + 1)]> m]> result.

Definition findDigitFrequencyPerPosition (numbers : list N) (numberOfDigits : N)
    : list (gmap N N) :=
  let result := replicate (N.to_nat numberOfDigits) (∅ : gmap N N) in
  foldl (λ result num,
           let digits := getDigits num numberOfDigits in
           foldl (λ result j, increment result j (digits !!! j))
                 result (seq 0 (length digits)))
        result numbers.

Definition evaluateGuess (guess : N) (digitFrequencyPerPosition : list (gmap N N))
    : outcome N :=
  let digits := getDigits guess 5 in
  forRange (seq 0 (length digits)) (λ result i,
    m ← index digitFrequencyPerPosition i;
    Ok (wrap64 (result + default 0 (m !! (digits !!! i))))) 0.

Definition findBestGuess (candidates : list N)
    (digitFrequencyPerPosition : list (gmap N N)) : outcome N :=
  bestGuess ← index candidates 0;
  bestGuessValue ← evaluateGuess bestGuess digitFrequencyPerPosition;
  best ← forRange (drop 1 candidates) (λ '(bestGuess, bestGuessValue) guess,
            guessValue ← evaluateGuess guess digitFrequencyPerPosition;
            Ok (if decide (bestGuessValue < guessValue)
                then (guess, guessValue) else (bestGuess, bestGuessValue)))
          (bestGuess, bestGuessValue);
  Ok (fst best).

(** The selector as [main] calls it: the frequencies are those of the current
    candidates, over 5 positions. *)
Definition selectBestGuess (candidates : list N) : outcome N :=
  findBestGuess candidates (findDigitFrequencyPerPosition candidates 5).

(** [main] up to its loop: the candidates and the first guess. *)
Definition mainStart : outcome (list N * N) :=
  candidates ← getPrimes 10000 100000;
  let digitFrequencyPerPosition := findDigitFrequencyPerPosition candidates 5 in
  bestGuess ← findBestGuess candidates digitFrequencyPerPosition;
  Ok (candidates, bestGuess).

(** One turn of the loop of [main], from the report that
    [readFeedbackForDigits] returned for [bestGuess]; the frequencies are
    computed before the emptiness test, as in the source. *)
Definition mainRound (candidates : list N) (bestGuess : N)
    (feedbackPerDigit : list feedback) : outcome roundResult :=
  if all feedbackPerDigit (λ f, bool_decide (fbType f = feedbackTypeCorrect))
  then Ok (Solved bestGuess)
  else
    candidates ← incorporateFeedback feedbackPerDigit candidates;
    let digitFrequencyPerPosition := findDigitFrequencyPerPosition candidates 5 in
    if decide (length candidates = 0%nat) then Exit 1
    else
      bestGuess ← findBestGuess candidates digitFrequencyPerPosition;
      Ok (NextRound candidates bestGuess).

(** The loop of [main] over the reports of the successive turns, for as long
    as [reports] lasts: the state reached, or how the program ended. *)
Fixpoint mainLoop (reports : list (list feedback)) (candidates : list N)
    (bestGuess : N) : outcome roundResult :=
  match reports with
  | [] => Ok (NextRound candidates bestGuess)
  | feedbackPerDigit :: later =>
    r ← mainRound candidates bestGuess feedbackPerDigit;
    match r with
    | Solved solution => Ok (Solved solution)
    | NextRound candidates bestGuess => mainLoop later candidates bestGuess
    end
  end.

End Frequency.

(** * Specification vocabulary

    The notions the properties are stated with, and the states of the loops
    used in their proofs. *)

(** ** Digit codec: vocabulary *)

(** Reconstruction of a number from its digits, least-significant first, by
    Horner's rule. *)
Fixpoint horner (digits : list N) : N :=
  match digits with
  | [] => 0
  | d :: rest => d + 10 * horner rest
  end.

(** The digits of [num], least-significant first, by structural recursion. *)
Fixpoint digitsFrom (count : nat) (num : N) : list N :=
  match count with
  | O => []
  | S count' => num mod 10 :: digitsFrom count' (num / 10)
  end.

(** ** Feedback evaluator: vocabulary *)

(** Position [j] carries the same digit in the guess and in the solution. *)
Definition agree (guessDigits possibleSolutionDigits : list N) (j : nat) : Prop :=
  guessDigits !!! j = possibleSolutionDigits !!! j.

#[global] Instance agree_dec (guessDigits possibleSolutionDigits : list N) (j : nat) :
  Decision (agree guessDigits possibleSolutionDigits j).
Proof. unfold agree. apply _. Defined.

(** Digit [d] stands in the solution at a position of [js] that is not a
    Correct one. *)
Definition presentAmong (guessDigits possibleSolutionDigits : list N)
    (js : list nat) (d : N) : Prop :=
  Exists (λ j, ¬ agree guessDigits possibleSolutionDigits j
               ∧ possibleSolutionDigits !!! j = d) js.

#[global] Instance presentAmong_dec (guessDigits possibleSolutionDigits : list N)
    (js : list nat) (d : N) :
  Decision (presentAmong guessDigits possibleSolutionDigits js d).
Proof. unfold presentAmong. apply _. Defined.

(** The kind the two-pass rule gives to position [i]. *)
Definition expectedKind (guessDigits possibleSolutionDigits : list N) (i : nat)
    : feedbackType :=
  if decide (agree guessDigits possibleSolutionDigits i) then feedbackTypeCorrect
  else if decide (presentAmong guessDigits possibleSolutionDigits
                    (seq 0 (length possibleSolutionDigits)) (guessDigits !!! i))
  then feedbackTypePresent
  else feedbackTypeAbsent.

(** The entry the two-pass rule gives to position [i]. *)
Definition expectedFeedback (guessDigits possibleSolutionDigits : list N) (i : nat)
    : feedback :=
  mkFeedback (guessDigits !!! i) (expectedKind guessDigits possibleSolutionDigits i).

(** The entry the code leaves at position [i]: an Absent position keeps the
    zero value of the struct when the last position is a Correct one. *)
Definition codeFeedback (guessDigits possibleSolutionDigits : list N) (i : nat)
    : feedback :=
  if decide (expectedKind guessDigits possibleSolutionDigits i = feedbackTypeAbsent
             ∧ agree guessDigits possibleSolutionDigits
                 (length possibleSolutionDigits - 1))
  then feedback_zero
  else expectedFeedback guessDigits possibleSolutionDigits i.

(** The entry at position [i] after the first loop. *)
Definition afterFirst (guessDigits possibleSolutionDigits : list N) (i : nat)
    : feedback :=
  if decide (agree guessDigits possibleSolutionDigits i)
  then mkFeedback (guessDigits !!! i) feedbackTypeCorrect
  else feedback_zero.

(** State of the first loop after [k] turns. *)
Definition firstInv (guessDigits possibleSolutionDigits : list N)
    (k : nat) (l : list feedback) : Prop :=
  length l = length possibleSolutionDigits ∧
  ∀ i, (i < length possibleSolutionDigits)%nat →
    l !!! i = if decide (i < k)%nat
              then afterFirst guessDigits possibleSolutionDigits i
              else feedback_zero.

(** State of the second loop after [k] turns. *)
Definition secondInv (guessDigits possibleSolutionDigits : list N)
    (k : nat) (l : list feedback) : Prop :=
  length l = length possibleSolutionDigits ∧
  ∀ i, (i < length possibleSolutionDigits)%nat →
    l !!! i = if decide (i < k)%nat
              then codeFeedback guessDigits possibleSolutionDigits i
              else afterFirst guessDigits possibleSolutionDigits i.

(** ** Candidate filter: vocabulary *)

(** The positions of a report that are marked Correct. *)
Definition correctAt (feedbackPerDigit : list feedback) (k : nat) : Prop :=
  ∃ f, feedbackPerDigit !! k = Some f ∧ fbType f = feedbackTypeCorrect.

(** A candidate is consistent with a report when it passes the test of each
    position: the fed-back digit at a Correct position; the fed-back digit of
    a Present position somewhere else, outside the Correct positions; no
    occurrence of the fed-back digit of an Absent position outside the
    Correct positions. *)
Definition consistent (feedbackPerDigit : list feedback) (c : N) : Prop :=
  ∀ i f, feedbackPerDigit !! i = Some f →
    (fbType f = feedbackTypeCorrect → getDigits c 5 !! i = Some (digit f)) ∧
    (fbType f = feedbackTypePresent →
       ∃ k, getDigits c 5 !! k = Some (digit f) ∧ k ≠ i
            ∧ ¬ correctAt feedbackPerDigit k) ∧
    (fbType f = feedbackTypeAbsent →
       ∀ k, getDigits c 5 !! k = Some (digit f) → correctAt feedbackPerDigit k).

(** The list [correctPositions] once the first loop is over. *)
Definition correctPositionsOf (feedbackPerDigit : list feedback) (is_ : list nat) : list N :=
  N.of_nat <$>
    List.filter (λ i, bool_decide (fbType (feedbackPerDigit !!! i) = feedbackTypeCorrect)) is_.

(** The tests of the two loops at position [i], as boolean functions. *)
Definition correctTest (feedbackPerDigit : list feedback) (c : N) (i : nat) : bool :=
  if decide (fbType (feedbackPerDigit !!! i) = feedbackTypeCorrect)
  then bool_decide (getDigits c 5 !! i = Some (digit (feedbackPerDigit !!! i)))
  else true.

Definition switchTest (feedbackPerDigit : list feedback) (correctPositions : list N)
    (c : N) (i : nat) : bool :=
  let f := feedbackPerDigit !!! i in
  if decide (fbType f = feedbackTypeCorrect) then true
  else if decide (fbType f = feedbackTypePresent)
  then presentLoop f i correctPositions 0 (getDigits c 5)
  else absentLoop f correctPositions 0 (getDigits c 5).

Definition consistentb (feedbackPerDigit : list feedback) (c : N) : bool :=
  let positions := seq 0 (length feedbackPerDigit) in
  forallb (correctTest feedbackPerDigit c) positions
  && forallb (switchTest feedbackPerDigit
                (correctPositionsOf feedbackPerDigit positions) c) positions.

(** A kind of the closed enumeration. *)
Definition validKind (f : feedback) : Prop :=
  fbType f = feedbackTypeCorrect ∨ fbType f = feedbackTypePresent
  ∨ fbType f = feedbackTypeAbsent.

(** A report of the three kinds over 5 positions, used to run the theorems
    on: Present 1, Correct 2, Absent 3, Absent 5, Absent 6. *)
Definition sampleReport : list feedback :=
  [mkFeedback 1 feedbackTypePresent; mkFeedback 2 feedbackTypeCorrect;
   mkFeedback 3 feedbackTypeAbsent; mkFeedback 5 feedbackTypeAbsent;
   mkFeedback 6 feedbackTypeAbsent].

Definition sampleCandidates : list N := [41124; 41125; 44421; 47127; 47137; 41124].

(** ** The solution against its own feedback: vocabulary *)

(** The report of the code for the 5-digit sequences of [g] and [s], and the
    report of the two-pass rule. *)
Definition codeReport (g s : N) : list feedback :=
  codeFeedback (getDigits g 5) (getDigits s 5) <$> seq 0 5.

Definition expectedReport (g s : N) : list feedback :=
  expectedFeedback (getDigits g 5) (getDigits s 5) <$> seq 0 5.

(** ** Simulation heuristic: vocabulary *)

(** Sum of [h] over a list. *)
Definition sumOver {A : Type} (h : A → N) (xs : list A) : N :=
  foldr (λ x acc, h x + acc) 0 xs.

(** The number of candidates left when [g] is guessed and [s] is the
    solution: the size of the list filtered by the code's report. *)
Definition remainingAfter (candidates : list N) (g s : N) : N :=
  N.of_nat (length (List.filter (consistentb (codeReport g s)) candidates)).

(** The score of the simulation heuristic: the sum, over the candidates taken
    as the solution, of the number of candidates left after filtering. *)
Definition simulationScore (candidates : list N) (g : N) : N :=
  sumOver (remainingAfter candidates g) candidates.

(** [b] is the first element of [xs] whose score is minimal. *)
Definition firstMin (score : N → N) (xs : list N) (b : N) : Prop :=
  ∃ k, xs !! k = Some b
       ∧ (∀ c, c ∈ xs → score b ≤ score c)
       ∧ (∀ j c, (j < k)%nat → xs !! j = Some c → score b < score c).

(** ** Frequency heuristic: vocabulary *)

(** The number of candidates that have digit [d] at position [i]. *)
Definition digitCount (candidates : list N) (i : nat) (d : N) : N :=
  N.of_nat (length (List.filter (λ c, bool_decide (getDigits c 5 !! i = Some d))
                      candidates)).

(** The score of the frequency heuristic: over the 5 positions, the number of
    candidates that share the digit of [g] there. *)
Definition frequencyScore (candidates : list N) (g : N) : N :=
  sumOver (λ i, digitCount candidates i (getDigits g 5 !!! i)) (seq 0 5).

(** [b] is the first element of [xs] whose score is maximal. *)
Definition firstMax (score : N → N) (xs : list N) (b : N) : Prop :=
  ∃ k, xs !! k = Some b
       ∧ (∀ c, c ∈ xs → score c ≤ score b)
       ∧ (∀ j c, (j < k)%nat → xs !! j = Some c → score c < score b).

(** The entry of digit [d] in the map of position [j]; a missing key is 0. *)
Definition frequencyAt (result : list (gmap N N)) (j : nat) (d : N) : N :=
  default 0 ((result !!! j) !! d).

(** The maps hold the digit counts of the numbers processed so far. *)
Definition frequencyInv (processed : list N) (result : list (gmap N N)) : Prop :=
  length result = 5%nat ∧
  ∀ j d, (j < 5)%nat → frequencyAt result j d = digitCount processed j d.

(** Five candidates to run the selectors on. *)
Definition samplePrimes : list N := [10007; 10009; 11113; 10037; 10039].

(** ** The selectors on empty and non-empty lists: vocabulary *)

(** A call that does not return a value: it panics or exits. *)
Definition failed {A : Type} (o : outcome A) : Prop :=
  match o with
  | Ok _ => False
  | Panic | Exit _ => True
  end.

(** ** Prime generator: vocabulary *)

(** The loops of the sieve on unbounded integers: what the code computes as
    long as its [int] arithmetic stays in range. *)
Fixpoint markMultiplesNat (fuel j step : nat) (candidates : list bool) : list bool :=
  match fuel with
  | O => candidates
  | S fuel' =>
    if decide (j < length candidates)%nat
    then markMultiplesNat fuel' (j + step) step (<[j := false]> candidates)
    else candidates
  end.

Fixpoint sieveLoopNat (is_ : list nat) (candidates : list bool) (primes : list N) : list N :=
  match is_ with
  | [] => primes
  | i :: rest =>
    if (candidates !!! i : bool)
    then sieveLoopNat rest
           (markMultiplesNat (length candidates) ((i + 2) * 2 - 2) (i + 2) candidates)
           (primes ++ [N.of_nat (i + 2)])
    else sieveLoopNat rest candidates primes
  end.

Definition sieveNat (max : N) : list N :=
  if decide (max < 2) then []
  else
    let candidates := replicate (N.to_nat (max - 2)) true in
    sieveLoopNat (seq 0 (length candidates)) candidates [].

Definition getPrimesNat (from to : N) : list N :=
  List.filter (λ p, bool_decide (from ≤ p)) (sieveNat to).

(** [p] is prime: at least 2 and without a divisor strictly between 1 and
    itself. *)
Definition isPrime (p : N) : Prop :=
  2 ≤ p ∧ ∀ d, 2 ≤ d → d < p → ¬ N.divide d p.

(** The same on the indices' type, and its boolean test by trial division. *)
Definition isPrimeNat (m : nat) : Prop :=
  (2 ≤ m)%nat ∧ ∀ d, (2 ≤ d)%nat → (d < m)%nat → ¬ Nat.divide d m.

Definition primeb (m : nat) : bool :=
  bool_decide (2 ≤ m)%nat
  && forallb (λ d, negb (m mod d =? 0)%nat) (seq 2 (m - 2)).

(** State of the outer loop on entering turn [i]: an entry is still set
    exactly when its value [k + 2] has no proper divisor below [i + 2]. *)
Definition sieveInv (n i : nat) (candidates : list bool) : Prop :=
  length candidates = n ∧
  ∀ k, (k < n)%nat →
    candidates !!! k = true ↔
    ∀ q, (2 ≤ q)%nat → (q < i + 2)%nat → Nat.divide q (k + 2) → q = (k + 2)%nat.

(** ** Reading the feedback and the loop of [main]: vocabulary *)

(** The kind a line of input stands for, if it is one of the three tokens. *)
Definition tokenKind (text : string) : option feedbackType :=
  if decide (text = "c") then Some feedbackTypeCorrect
  else if decide (text = "p") then Some feedbackTypePresent
  else if decide (text = "a") then Some feedbackTypeAbsent
  else None.

(** The kinds of the valid lines of the input, in the order they are read. *)
Definition tokenKinds (stdin : list string) : list feedbackType :=
  omap tokenKind stdin.

(** A report as [readFeedbackForDigits] returns it for a 5-digit guess. *)
Definition wellFormedReport (feedbackPerDigit : list feedback) : Prop :=
  Forall validKind feedbackPerDigit ∧ length feedbackPerDigit = 5%nat.

(** What a run of the loop of [main] may reach, from the candidates
    [candidates]: one of them as the solution, exit code 1, or a part of the
    candidates with a guess taken from it. *)
Definition safeRun (candidates : list N) (r : outcome roundResult) : Prop :=
  match r with
  | Ok (Solved solution) => solution ∈ candidates
  | Ok (NextRound candidates' bestGuess') =>
    candidates' `sublist_of` candidates ∧ bestGuess' ∈ candidates'
  | Exit code => code = 1%Z
  | Panic => False
  end.

(** Trial division of [p] by [d], [d + 1], ... ([count] divisors). *)
Fixpoint noDivisorFrom (count : nat) (d p : N) : bool :=
  match count with
  | O => true
  | S count' => negb (p mod d =? 0) && noDivisorFrom count' (N.succ d) p
  end.

(** The entry of digit [d] in the map of position [j], as the map has it. *)
Definition lookupAt (result : list (gmap N N)) (j : nat) (d : N) : option N :=
  (result !!! j) !! d.

(** * Properties *)

(** ** Outcome monad *)

Lemma bind_Ok {A B : Type} (f : A → outcome B) (a : A) : (Ok a ≫= f) = f a.
Proof. reflexivity. Qed.

Lemma index_lt {A : Type} `{!Inhabited A} (s : list A) (i : nat) :
  (i < length s)%nat → index s i = Ok (s !!! i).
Proof.
  intros Hi. unfold index.
  by rewrite (list_lookup_lookup_total_lt s i Hi).
Qed.

Lemma index_ge {A : Type} (s : list A) (i : nat) :
  (length s ≤ i)%nat → index s i = Panic.
Proof.
  intros Hi. unfold index. by rewrite (lookup_ge_None_2 s i Hi).
Qed.

(** ** Digit codec *)

Lemma getDigits_loop_app (count : nat) (num : N) (result : list N) :
  getDigits_loop count num result = result ++ digitsFrom count num.
Proof.
  revert num result. induction count as [|count IH]; intros num result; simpl.
  - by rewrite app_nil_r.
  - rewrite IH. by rewrite <- app_assoc.
Qed.

Lemma getDigits_digitsFrom (num numberOfDigits : N) :
  getDigits num numberOfDigits
  = digitsFrom (Z.to_nat (int_of_uint numberOfDigits)) num.
Proof. unfold getDigits. by rewrite getDigits_loop_app. Qed.

Lemma length_digitsFrom (count : nat) (num : N) : length (digitsFrom count num) = count.
Proof. revert num. induction count as [|count IH]; intros num; simpl; [done|]. by rewrite IH. Qed.

Lemma lookup_digitsFrom (count : nat) (num : N) (i : nat) :
  (i < count)%nat →
  digitsFrom count num !! i = Some ((num / 10 ^ N.of_nat i) mod 10).
Proof.
  revert num i. induction count as [|count IH]; intros num i Hi; [lia|].
  destruct i as [|i]; simpl.
  - by rewrite N.div_1_r.
  - rewrite IH by lia. f_equal. f_equal.
    rewrite Nat2N.inj_succ, N.pow_succ_r', N.Div0.div_div. done.
Qed.

Lemma digitsFrom_lt_10 (count : nat) (num d : N) :
  d ∈ digitsFrom count num → d < 10.
Proof.
  revert num. induction count as [|count IH]; intros num; simpl.
  - by intros ?%elem_of_nil.
  - intros [->|Hd]%elem_of_cons; [|by eapply IH].
    by apply N.mod_lt.
Qed.

Lemma horner_digitsFrom (count : nat) (num : N) :
  horner (digitsFrom count num) = num mod 10 ^ N.of_nat count.
Proof.
  revert num. induction count as [|count IH]; intros num; simpl horner.
  - simpl. by rewrite N.mod_1_r.
  - rewrite IH.
    rewrite Nat2N.inj_succ, N.pow_succ_r'. by rewrite N.Div0.mod_mul_r.
Qed.

Lemma getDigits_5 (num : N) : getDigits num 5 = digitsFrom 5 num.
Proof. by rewrite getDigits_digitsFrom. Qed.

Lemma length_getDigits_5 (num : N) : length (getDigits num 5) = 5%nat.
Proof. by rewrite getDigits_5, length_digitsFrom. Qed.

(** C7. For every number [n], [getDigits n 5] has exactly 5 entries, each a
    decimal digit; entry [i] is the digit of weight [10^i] (least-significant
    first); and for [n < 100000] Horner's rule on these digits gives [n]
    back. *)
Theorem getDigits_5_horner (n : N) :
  length (getDigits n 5) = 5%nat ∧
  (∀ i : nat, (i < 5)%nat → getDigits n 5 !! i = Some ((n / 10 ^ N.of_nat i) mod 10)) ∧
  (∀ d : N, d ∈ getDigits n 5 → d < 10) ∧
  (n < 100000 → horner (getDigits n 5) = n).
Proof.
  rewrite getDigits_5. split; [apply length_digitsFrom|].
  split; [intros i Hi; by apply lookup_digitsFrom|].
  split; [intros d; apply digitsFrom_lt_10|].
  intros Hn. rewrite horner_digitsFrom.
  apply N.mod_small. exact Hn.
Qed.

Lemma getDigits_5_horner_witness :
  12345 < 100000 ∧ horner (getDigits 12345 5) = 12345
  ∧ getDigits 12345 5 = [5; 4; 3; 2; 1].
Proof.
  split; [reflexivity|].
  split; [|reflexivity].
  apply (getDigits_5_horner 12345). reflexivity.
Defined.

(** ** Feedback evaluator *)

(** A list of known length is determined by its entries. *)
Lemma list_eq_tabulate {A : Type} `{!Inhabited A} (l : list A) (f : nat → A) (n : nat) :
  length l = n → (∀ i, (i < n)%nat → l !!! i = f i) → l = f <$> seq 0 n.
Proof.
  intros Hlen Hl. apply list_eq. intros i.
  rewrite list_lookup_fmap.
  destruct (decide (i < n)%nat) as [Hi|Hi].
  - rewrite lookup_seq_lt by done. simpl.
    rewrite (list_lookup_lookup_total_lt l i) by lia. by rewrite Hl.
  - rewrite lookup_seq_ge by lia. simpl. apply lookup_ge_None_2. lia.
Qed.

Lemma lookup_total_tabulate {A : Type} `{!Inhabited A} (f : nat → A) (n i : nat) :
  (i < n)%nat → (f <$> seq 0 n) !!! i = f i.
Proof.
  intros Hi. apply list_lookup_total_correct.
  by rewrite list_lookup_fmap, lookup_seq_lt.
Qed.

Lemma foldl_seq_S {A : Type} (f : A → nat → A) (a : A) (k : nat) :
  foldl f a (seq 0 (S k)) = f (foldl f a (seq 0 k)) k.
Proof. by rewrite seq_S, foldl_app. Qed.

Section Evaluator.
Variables guessDigits possibleSolutionDigits : list N.
Local Abbreviation size := (length possibleSolutionDigits).
Hypothesis same_length : length guessDigits = length possibleSolutionDigits.

Lemma afterFirst_Correct (i : nat) :
  fbType (afterFirst guessDigits possibleSolutionDigits i) = feedbackTypeCorrect ↔ agree guessDigits possibleSolutionDigits i.
Proof. unfold afterFirst. case_decide; simpl; [done|]. split; [done|]. done. Qed.

Lemma expectedKind_Correct (i : nat) :
  expectedKind guessDigits possibleSolutionDigits i = feedbackTypeCorrect ↔ agree guessDigits possibleSolutionDigits i.
Proof. unfold expectedKind. repeat case_decide; split; done. Qed.

Lemma codeFeedback_Correct (i : nat) :
  fbType (codeFeedback guessDigits possibleSolutionDigits i) = feedbackTypeCorrect ↔ agree guessDigits possibleSolutionDigits i.
Proof.
  unfold codeFeedback. case_decide as Hc.
  - destruct Hc as [Hk _]. simpl. split; [done|].
    intros Ha%expectedKind_Correct. rewrite Ha in Hk. done.
  - simpl. apply expectedKind_Correct.
Qed.

Lemma firstInv_step (k : nat) (l : list feedback) :
  (k < size)%nat → firstInv guessDigits possibleSolutionDigits k l →
  firstInv guessDigits possibleSolutionDigits (S k) (markCorrect guessDigits possibleSolutionDigits l k).
Proof.
  intros Hk [Hlen Hl]. unfold markCorrect. split.
  - case_decide; [by rewrite length_insert|done].
  - intros i Hi. specialize (Hl i Hi).
    destruct (decide (i = k)) as [->|Hne].
    + rewrite (decide_True (P := (k < S k)%nat)) by lia.
      rewrite (decide_False (P := (k < k)%nat)) in Hl by lia.
      unfold afterFirst.
      destruct (decide (guessDigits !!! k = possibleSolutionDigits !!! k)) as [He|He].
      * rewrite decide_True by done. by rewrite list_lookup_total_insert_eq by lia.
      * by rewrite decide_False.
    + assert (l !!! i =
              if decide (i < S k)%nat then afterFirst guessDigits possibleSolutionDigits i else feedback_zero) as Hl'.
      { rewrite Hl. repeat case_decide; done || lia. }
      rewrite <- Hl'. clear Hl Hl'.
      case_decide; [|done].
      by rewrite list_lookup_total_insert_ne.
Qed.

Lemma firstInv_foldl (k : nat) :
  (k ≤ size)%nat →
  firstInv guessDigits possibleSolutionDigits k (foldl (markCorrect guessDigits possibleSolutionDigits)
                    (replicate size feedback_zero) (seq 0 k)).
Proof.
  induction k as [|k IH]; intros Hk.
  - split; [apply length_replicate|].
    intros i Hi. simpl. by rewrite lookup_total_replicate_2.
  - rewrite foldl_seq_S. apply firstInv_step; [lia|]. apply IH. lia.
Qed.

(** What the inner loop does on the positions [a, a + len) when the
    Correct marks of the report are exactly the agreeing positions. *)
Lemma scanSolution_spec (l : list feedback) (i : nat) (len a : nat) :
  (∀ j, (j < size)%nat → fbType (l !!! j) = feedbackTypeCorrect ↔ agree guessDigits possibleSolutionDigits j) →
  (a + len = size)%nat →
  scanSolution guessDigits possibleSolutionDigits i (seq a len) l =
    if decide (presentAmong guessDigits possibleSolutionDigits (seq a len) (guessDigits !!! i))
    then <[i := mkFeedback (guessDigits !!! i) feedbackTypePresent]> l
    else if decide (len ≠ 0%nat ∧ ¬ agree guessDigits possibleSolutionDigits (size - 1))
    then <[i := mkFeedback (guessDigits !!! i) feedbackTypeAbsent]> l
    else l.
Proof.
  intros Hmarks. revert a. induction len as [|len IH]; intros a Ha.
  - by simpl.
  - cbn [seq scanSolution]. unfold presentAmong.
    assert (a < size)%nat as Han by lia.
    destruct (decide (fbType (l !!! a) = feedbackTypeCorrect)) as [Hc|Hc].
    + apply Hmarks in Hc; [|done].
      rewrite IH by lia. unfold presentAmong.
      destruct (decide (Exists _ (seq (S a) len))) as [He|He].
      * rewrite decide_True by (by apply Exists_cons_tl). done.
      * rewrite (decide_False (P := Exists _ (a :: _))).
        2:{ intros [[? _]|?]%Exists_cons; done. }
        destruct (decide (len = 0%nat)) as [->|Hlen].
        -- replace (size - 1)%nat with a by lia.
           rewrite !decide_False by (by intros [? ?]). done.
        -- repeat case_decide; first [done | exfalso; intuition lia].
    + assert (¬ agree guessDigits possibleSolutionDigits a) as Hna by (by rewrite <- Hmarks).
      destruct (decide (possibleSolutionDigits !!! a = guessDigits !!! i)) as [Hm|Hm].
      * rewrite decide_True by (by apply Exists_cons_hd). done.
      * destruct (decide (a = (length possibleSolutionDigits - 1)%nat)) as [Hlast|Hlast].
        -- assert (len = 0%nat) as -> by lia.
           cbn [seq scanSolution].
           rewrite (decide_False (P := Exists _ [a])).
           2:{ intros [[_ ?]|?%Exists_nil]%Exists_cons; [congruence|done]. }
           rewrite decide_True; [done|].
           split; [done|]. by rewrite <- Hlast.
        -- rewrite IH by lia. unfold presentAmong.
           assert (len ≠ 0%nat) by lia.
           destruct (decide (Exists _ (seq (S a) len))) as [He|He].
           ++ rewrite decide_True by (by apply Exists_cons_tl). done.
           ++ rewrite (decide_False (P := Exists _ (a :: _))).
              2:{ intros [[_ ?]|?]%Exists_cons; done. }
              repeat case_decide; first [done | exfalso; intuition lia].
Qed.

Lemma secondInv_marks (k : nat) (l : list feedback) :
  secondInv guessDigits possibleSolutionDigits k l →
  ∀ j, (j < size)%nat → fbType (l !!! j) = feedbackTypeCorrect ↔ agree guessDigits possibleSolutionDigits j.
Proof.
  intros [_ Hl] j Hj. rewrite (Hl j Hj).
  case_decide; [apply codeFeedback_Correct|apply afterFirst_Correct].
Qed.

Lemma secondInv_step (k : nat) (l : list feedback) :
  (k < size)%nat → secondInv guessDigits possibleSolutionDigits k l →
  secondInv guessDigits possibleSolutionDigits (S k) (markRemaining guessDigits possibleSolutionDigits l k).
Proof.
  intros Hk Hinv. pose proof (secondInv_marks k l Hinv) as Hmarks.
  destruct Hinv as [Hlen Hl].
  assert (∀ i, (i < size)%nat → i ≠ k →
            l !!! i = if decide (i < S k)%nat then codeFeedback guessDigits possibleSolutionDigits i else afterFirst guessDigits possibleSolutionDigits i)
    as Hother.
  { intros i Hi Hne. rewrite (Hl i Hi). repeat case_decide; done || lia. }
  assert (l !!! k = afterFirst guessDigits possibleSolutionDigits k) as Hk0.
  { rewrite (Hl k Hk). by rewrite decide_False by lia. }
  unfold markRemaining.
  destruct (decide (fbType (l !!! k) = feedbackTypeCorrect)) as [Hc|Hc].
  - split; [done|]. intros i Hi.
    destruct (decide (i = k)) as [->|Hne]; [|by apply Hother].
    rewrite (decide_True (P := (k < S k)%nat)) by lia. rewrite Hk0.
    apply Hmarks in Hc; [|done].
    unfold afterFirst, codeFeedback, expectedFeedback.
    pose proof (proj2 (expectedKind_Correct k) Hc) as Hek.
    rewrite decide_True by done. rewrite decide_False; [by rewrite Hek|].
    intros [Hab _]. rewrite Hek in Hab. done.
  - assert (¬ agree guessDigits possibleSolutionDigits k) as Hna by (by rewrite <- Hmarks).
    rewrite (scanSolution_spec l k size 0 Hmarks) by lia.
    assert (codeFeedback guessDigits possibleSolutionDigits k =
      if decide (presentAmong guessDigits possibleSolutionDigits (seq 0 size) (guessDigits !!! k))
      then mkFeedback (guessDigits !!! k) feedbackTypePresent
      else if decide (size ≠ 0%nat ∧ ¬ agree guessDigits possibleSolutionDigits (size - 1))
      then mkFeedback (guessDigits !!! k) feedbackTypeAbsent
      else feedback_zero) as Hcode.
    { unfold codeFeedback, expectedFeedback, expectedKind.
      rewrite (decide_False (P := agree guessDigits possibleSolutionDigits k)) by done.
      destruct (decide (presentAmong guessDigits possibleSolutionDigits (seq 0 size) (guessDigits !!! k))).
      - rewrite decide_False; [done|]. by intros [? _].
      - destruct (decide (agree guessDigits possibleSolutionDigits (size - 1))).
        + rewrite decide_True by done. rewrite decide_False by (by intros [_ ?]). done.
        + rewrite decide_False by (by intros [_ ?]).
          rewrite decide_True; [done|]. split; [lia|done]. }
    split.
    + repeat case_decide; rewrite ?length_insert; done.
    + intros i Hi. destruct (decide (i = k)) as [->|Hne].
      * rewrite (decide_True (P := (k < S k)%nat)) by lia. rewrite Hcode.
        clear Hcode Hother Hl.
        repeat case_decide; rewrite ?list_lookup_total_insert_eq by lia; try done.
        rewrite Hk0. unfold afterFirst. by rewrite decide_False.
      * rewrite <- (Hother i Hi Hne). clear Hcode Hother Hl.
        repeat case_decide; rewrite ?list_lookup_total_insert_ne by done; done.
Qed.

Lemma secondInv_foldl (k : nat) (l : list feedback) :
  (k ≤ size)%nat → secondInv guessDigits possibleSolutionDigits 0 l →
  secondInv guessDigits possibleSolutionDigits k (foldl (markRemaining guessDigits possibleSolutionDigits) l (seq 0 k)).
Proof.
  intros Hk H0. induction k as [|k IH]; [done|].
  rewrite foldl_seq_S. apply secondInv_step; [lia|]. apply IH. lia.
Qed.

(** The report the code computes, position by position. *)
Lemma getFeedbackPerDigit_spec :
  getFeedbackPerDigit guessDigits possibleSolutionDigits
  = Ok (codeFeedback guessDigits possibleSolutionDigits <$> seq 0 size).
Proof.
  unfold getFeedbackPerDigit. rewrite decide_False by (intros ?; done).
  rewrite same_length. f_equal.
  pose proof (firstInv_foldl size (le_n _)) as [Hlen1 Hl1].
  assert (secondInv guessDigits possibleSolutionDigits 0 (foldl (markCorrect guessDigits possibleSolutionDigits)
                             (replicate size feedback_zero) (seq 0 size))) as H0.
  { split; [done|]. intros i Hi. rewrite (Hl1 i Hi).
    rewrite decide_True by done. by rewrite decide_False by lia. }
  pose proof (secondInv_foldl size _ (le_n _) H0) as [Hlen2 Hl2].
  apply list_eq_tabulate; [done|].
  intros i Hi. rewrite (Hl2 i Hi). by rewrite decide_True.
Qed.

End Evaluator.

(** The kinds of the computed report are always those of the two-pass rule. *)
Lemma getFeedbackPerDigit_kinds (guessDigits possibleSolutionDigits : list N) :
  length guessDigits = length possibleSolutionDigits →
  ∃ report,
    getFeedbackPerDigit guessDigits possibleSolutionDigits = Ok report ∧
    length report = length guessDigits ∧
    ∀ i, (i < length guessDigits)%nat →
      fbType (report !!! i) = expectedKind guessDigits possibleSolutionDigits i.
Proof.
  intros Hlen. eexists. split; [by apply getFeedbackPerDigit_spec|].
  split; [by rewrite length_fmap, length_seq|].
  intros i Hi. rewrite lookup_total_tabulate by lia.
  unfold codeFeedback. case_decide as Hc; [|done]. by destruct Hc as [-> _].
Qed.

(** C1, at the guess 11113 against the solution 10007, two candidates of the
    game (digits are stored least-significant first, so the shared leading 1
    is the last position). The two-pass rule pairs each of the four Absent
    positions with the digit of the guess there; the code returns the zero
    value [{0, Absent}] at all four, because the [continue] taken on the
    Correct-marked last position skips the branch that writes the Absent
    entry. The same happens on the pair 11234, 15678 of the specification's
    duplicate-digit scenario. *)
Theorem getFeedbackPerDigit_absent_digit_lost :
  getFeedbackPerDigit (getDigits 11113 5) (getDigits 10007 5)
  = Ok [mkFeedback 0 feedbackTypeAbsent; mkFeedback 0 feedbackTypeAbsent;
        mkFeedback 0 feedbackTypeAbsent; mkFeedback 0 feedbackTypeAbsent;
        mkFeedback 1 feedbackTypeCorrect]
  ∧ expectedFeedback (getDigits 11113 5) (getDigits 10007 5) <$> seq 0 5
    = [mkFeedback 3 feedbackTypeAbsent; mkFeedback 1 feedbackTypeAbsent;
       mkFeedback 1 feedbackTypeAbsent; mkFeedback 1 feedbackTypeAbsent;
       mkFeedback 1 feedbackTypeCorrect]
  ∧ getFeedbackPerDigit (getDigits 11234 5) (getDigits 15678 5)
    = Ok [mkFeedback 0 feedbackTypeAbsent; mkFeedback 0 feedbackTypeAbsent;
          mkFeedback 0 feedbackTypeAbsent; mkFeedback 0 feedbackTypeAbsent;
          mkFeedback 1 feedbackTypeCorrect]
  ∧ expectedFeedback (getDigits 11234 5) (getDigits 15678 5) <$> seq 0 5
    = [mkFeedback 4 feedbackTypeAbsent; mkFeedback 3 feedbackTypeAbsent;
       mkFeedback 2 feedbackTypeAbsent; mkFeedback 1 feedbackTypeAbsent;
       mkFeedback 1 feedbackTypeCorrect].
Proof. repeat split; vm_compute; reflexivity. Qed.

(** ** Candidate filter *)

Lemma filter_pure (slice : list N) (predicate : N → outcome bool) (p : N → bool) :
  (∀ x, x ∈ slice → predicate x = Ok (p x)) →
  filter slice predicate = Ok (List.filter p slice).
Proof.
  induction slice as [|x rest IH]; intros Hp; simpl; [done|].
  rewrite Hp by apply list_elem_of_here. rewrite bind_Ok.
  rewrite IH by (intros y Hy; apply Hp; by apply list_elem_of_further).
  rewrite bind_Ok. by destruct (p x).
Qed.

Lemma filter_filter_andb (p q : N → bool) (l : list N) :
  List.filter q (List.filter p l) = List.filter (λ x, p x && q x) l.
Proof.
  induction l as [|x l IH]; simpl; [done|].
  destruct (p x); simpl; [|done]. destruct (q x); by rewrite IH.
Qed.

Lemma filter_ext_bool (p q : N → bool) (l : list N) :
  (∀ x, p x = q x) → List.filter p l = List.filter q l.
Proof. intros Hpq. apply List.filter_ext. exact Hpq. Qed.

Lemma contains_elem_of (slice : list N) (elem : N) :
  contains slice elem = true ↔ elem ∈ slice.
Proof.
  induction slice as [|x rest IH]; simpl.
  - split; [done|]. by intros ?%elem_of_nil.
  - case_decide as Hx.
    + subst. split; [intros _; apply list_elem_of_here|done].
    + rewrite IH. rewrite elem_of_cons.
      split; [by right|]. intros [->|?]; done.
Qed.

Lemma correctPredicate_pure (feedbackPerDigit : list feedback) (i : nat) (c : N) :
  (i < 5)%nat →
  fbType (feedbackPerDigit !!! i) = feedbackTypeCorrect →
  correctPredicate (feedbackPerDigit !!! i) i c = Ok (correctTest feedbackPerDigit c i).
Proof.
  intros Hi Hc. unfold correctPredicate, correctTest.
  rewrite decide_True by done.
  rewrite index_lt by (rewrite length_getDigits_5; lia). rewrite bind_Ok.
  f_equal. apply bool_decide_ext.
  rewrite (list_lookup_lookup_total_lt (getDigits c 5) i)
    by (rewrite length_getDigits_5; lia).
  split; [by intros ->|by intros [= ->]].
Qed.

(** The first loop: a filter by the tests of the Correct positions, and the
    list of these positions. *)
Lemma correctLoop_spec (feedbackPerDigit : list feedback) (is_ : list nat)
    (candidates correctPositions : list N) :
  Forall (λ i, (i < 5)%nat) is_ →
  forRange is_ (correctStep feedbackPerDigit) (candidates, correctPositions)
  = Ok (List.filter (λ c, forallb (correctTest feedbackPerDigit c) is_) candidates,
        correctPositions ++ correctPositionsOf feedbackPerDigit is_).
Proof.
  revert candidates correctPositions.
  induction is_ as [|i rest IH]; intros candidates correctPositions Hlt.
  - simpl. unfold correctPositionsOf. simpl. rewrite app_nil_r.
    f_equal. f_equal. induction candidates as [|c l IHl]; simpl; [done|].
    by rewrite <- IHl.
  - apply Forall_cons in Hlt as [Hi Hrest].
    cbn [forRange].
    assert (correctStep feedbackPerDigit (candidates, correctPositions) i
            = Ok (List.filter (λ c, correctTest feedbackPerDigit c i) candidates,
                  correctPositions ++ correctPositionsOf feedbackPerDigit [i])) as ->.
    { unfold correctStep, correctPositionsOf. cbn [List.filter].
      destruct (decide (fbType (feedbackPerDigit !!! i) = feedbackTypeCorrect)) as [Hc|Hc].
      - rewrite (filter_pure _ _ (λ c, correctTest feedbackPerDigit c i))
          by (intros; by apply correctPredicate_pure).
        rewrite bind_Ok. by rewrite bool_decide_true.
      - rewrite bool_decide_false by done. cbn [fmap list_fmap]. rewrite app_nil_r.
        f_equal. f_equal. unfold correctTest.
        induction candidates as [|c l IHl]; simpl; [done|].
        rewrite decide_False by done. by rewrite <- IHl. }
    rewrite bind_Ok, IH by done. rewrite filter_filter_andb.
    rewrite <- app_assoc. f_equal. f_equal.
    unfold correctPositionsOf. rewrite <- fmap_app. f_equal.
    cbn [List.filter]. by destruct (bool_decide _).
Qed.

(** The second loop: a filter by the tests of the switch. *)
Lemma switchLoop_spec (feedbackPerDigit : list feedback) (correctPositions : list N)
    (is_ : list nat) (candidates : list N) :
  Forall (λ i, validKind (feedbackPerDigit !!! i)) is_ →
  forRange is_ (switchStep feedbackPerDigit correctPositions) candidates
  = Ok (List.filter (λ c, forallb (switchTest feedbackPerDigit correctPositions c) is_)
          candidates).
Proof.
  revert candidates. induction is_ as [|i rest IH]; intros candidates Hvalid.
  - simpl. f_equal. induction candidates as [|c l IHl]; simpl; [done|].
    by rewrite <- IHl.
  - apply Forall_cons in Hvalid as [Hi Hrest].
    cbn [forRange].
    assert (switchStep feedbackPerDigit correctPositions candidates i
            = Ok (List.filter (λ c, switchTest feedbackPerDigit correctPositions c i)
                    candidates)) as ->.
    { unfold switchStep, switchTest. cbv zeta.
      destruct (decide (fbType (feedbackPerDigit !!! i) = feedbackTypeCorrect)).
      { f_equal. induction candidates as [|c l IHl]; simpl; [done|]. by rewrite <- IHl. }
      destruct (decide (fbType (feedbackPerDigit !!! i) = feedbackTypePresent)).
      { by apply filter_pure. }
      rewrite decide_True by (destruct Hi as [?|[?|?]]; done).
      by apply filter_pure. }
    rewrite bind_Ok, IH by done. by rewrite filter_filter_andb.
Qed.

Lemma Forall_positions {A : Type} `{!Inhabited A} (P : A → Prop) (l : list A) :
  Forall P l → Forall (λ i, P (l !!! i)) (seq 0 (length l)).
Proof.
  intros Hl. apply Forall_seq. intros i Hi.
  rewrite Forall_lookup in Hl. apply (Hl i).
  apply list_lookup_lookup_total_lt. lia.
Qed.

(** On a report of valid kinds over at most 5 positions the filter returns,
    and keeps the candidates that pass [consistentb], in their order. *)
Lemma incorporateFeedback_filter (feedbackPerDigit : list feedback) (candidates : list N) :
  Forall validKind feedbackPerDigit →
  (length feedbackPerDigit ≤ 5)%nat →
  incorporateFeedback feedbackPerDigit candidates
  = Ok (List.filter (consistentb feedbackPerDigit) candidates).
Proof.
  intros Hvalid Hlen. unfold incorporateFeedback. cbv zeta.
  rewrite correctLoop_spec by (apply Forall_seq; intros; lia).
  rewrite bind_Ok. cbn [app].
  rewrite switchLoop_spec by (by apply Forall_positions).
  by rewrite filter_filter_andb.
Qed.

Lemma correctAt_lookup_total (feedbackPerDigit : list feedback) (k : nat) :
  correctAt feedbackPerDigit k ↔
  (k < length feedbackPerDigit)%nat
  ∧ fbType (feedbackPerDigit !!! k) = feedbackTypeCorrect.
Proof.
  unfold correctAt. split.
  - intros (f & Hk & Hc). split; [by eapply lookup_lt_Some|].
    by rewrite (list_lookup_total_correct _ _ _ Hk).
  - intros [Hk Hc]. exists (feedbackPerDigit !!! k).
    split; [by apply list_lookup_lookup_total_lt|done].
Qed.

Lemma contains_correctPositionsOf (feedbackPerDigit : list feedback) (k : nat) :
  contains (correctPositionsOf feedbackPerDigit (seq 0 (length feedbackPerDigit)))
           (N.of_nat k) = true
  ↔ correctAt feedbackPerDigit k.
Proof.
  rewrite contains_elem_of, correctAt_lookup_total. unfold correctPositionsOf.
  rewrite list_elem_of_fmap. split.
  - intros (x & Hx & Hin). apply Nat2N.inj in Hx. subst x.
    apply list_elem_of_In, List.filter_In in Hin as [Hin Hc].
    apply in_seq in Hin. apply bool_decide_eq_true in Hc. split; [lia|done].
  - intros [Hk Hc]. exists k. split; [done|].
    apply list_elem_of_In, List.filter_In. split; [apply in_seq; lia|].
    by apply bool_decide_eq_true.
Qed.

Lemma presentLoop_true (f : feedback) (i : nat) (correctPositions : list N)
    (index : nat) (digits : list N) :
  presentLoop f i correctPositions index digits = true ↔
  ∃ k, digits !! k = Some (digit f) ∧ (index + k)%nat ≠ i
       ∧ contains correctPositions (N.of_nat (index + k)) = false.
Proof.
  revert index. induction digits as [|d rest IH]; intros index; cbn [presentLoop].
  - split; [done|]. by intros (k & Hk & _).
  - destruct (bool_decide (d = digit f) && bool_decide (index ≠ i)
              && negb (contains correctPositions (N.of_nat index))) eqn:Hhere.
    + split; [intros _|done].
      apply andb_true_iff in Hhere as [Hhere Hcp].
      apply andb_true_iff in Hhere as [Hd Hi].
      apply bool_decide_eq_true in Hd, Hi. apply negb_true_iff in Hcp.
      exists 0%nat. rewrite Nat.add_0_r. by subst.
    + rewrite IH. split.
      * intros (k & Hk & Hne & Hcp). exists (S k).
        by rewrite Nat.add_succ_r.
      * intros ([|k] & Hk & Hne & Hcp).
        -- rewrite Nat.add_0_r in Hne, Hcp. simpl in Hk. injection Hk as ->.
           rewrite bool_decide_true, bool_decide_true, Hcp in Hhere by done.
           done.
        -- exists k. by rewrite Nat.add_succ_r in Hne, Hcp.
Qed.

Lemma absentLoop_true (f : feedback) (correctPositions : list N)
    (index : nat) (digits : list N) :
  absentLoop f correctPositions index digits = true ↔
  ∀ k, digits !! k = Some (digit f) →
       contains correctPositions (N.of_nat (index + k)) = true.
Proof.
  revert index. induction digits as [|d rest IH]; intros index; cbn [absentLoop].
  - split; [|done]. by intros _ k Hk.
  - destruct (bool_decide (d = digit f)
              && negb (contains correctPositions (N.of_nat index))) eqn:Hhere.
    + split; [done|]. intros Hall.
      apply andb_true_iff in Hhere as [Hd Hcp].
      apply bool_decide_eq_true in Hd. apply negb_true_iff in Hcp.
      specialize (Hall 0%nat). rewrite Nat.add_0_r in Hall.
      rewrite Hall in Hcp; [done|]. by subst.
    + rewrite IH. split.
      * intros Hall [|k] Hk.
        -- rewrite Nat.add_0_r. simpl in Hk. injection Hk as ->.
           rewrite bool_decide_true in Hhere by done.
           by destruct (contains correctPositions (N.of_nat index)).
        -- rewrite Nat.add_succ_r. by apply (Hall k).
      * intros Hall k Hk. specialize (Hall (S k) Hk).
        by rewrite Nat.add_succ_r in Hall.
Qed.

(** [consistentb] decides [consistent]. *)
Lemma consistentb_spec (feedbackPerDigit : list feedback) (c : N) :
  Forall validKind feedbackPerDigit →
  consistentb feedbackPerDigit c = true ↔ consistent feedbackPerDigit c.
Proof.
  intros Hvalid. unfold consistentb, consistent. cbv zeta.
  rewrite andb_true_iff, !List.forallb_forall.
  set (cp := correctPositionsOf _ _).
  assert (∀ k, contains cp (N.of_nat k) = false ↔ ¬ correctAt feedbackPerDigit k)
    as Hcpf.
  { intros k. unfold cp. rewrite <- contains_correctPositionsOf.
    by destruct (contains _ _). }
  split.
  - intros [Hcorrect Hswitch] i f Hi.
    assert (i < length feedbackPerDigit)%nat as Hlt by (by eapply lookup_lt_Some).
    assert (In i (seq 0 (length feedbackPerDigit))) as Hin by (apply in_seq; lia).
    specialize (Hcorrect i Hin). specialize (Hswitch i Hin).
    unfold correctTest in Hcorrect. unfold switchTest in Hswitch.
    rewrite (list_lookup_total_correct _ _ _ Hi) in Hcorrect, Hswitch.
    split; [|split]; intros Hkind.
    + rewrite decide_True in Hcorrect by done. by apply bool_decide_eq_true in Hcorrect.
    + rewrite decide_False, decide_True in Hswitch by (by rewrite ?Hkind).
      apply presentLoop_true in Hswitch as (k & Hk & Hne & Hcp).
      exists k. split; [done|]. split; [done|]. by apply Hcpf.
    + rewrite !decide_False in Hswitch by (by rewrite ?Hkind).
      intros k Hk. apply contains_correctPositionsOf.
      by apply (proj1 (absentLoop_true _ _ _ _) Hswitch k).
  - intros Hall. split; intros i [_ Hlt]%in_seq; simpl in Hlt.
    + pose proof (list_lookup_lookup_total_lt feedbackPerDigit i Hlt) as Hi.
      unfold correctTest. case_decide as Hkind; [|done].
      apply bool_decide_eq_true. by apply (Hall i _ Hi).
    + pose proof (list_lookup_lookup_total_lt feedbackPerDigit i Hlt) as Hi.
      destruct (Hall i _ Hi) as (_ & Hpresent & Habsent).
      unfold switchTest. cbv zeta.
      case_decide as Hc; [done|]. case_decide as Hp.
      * apply presentLoop_true. destruct (Hpresent Hp) as (k & Hk & Hne & Hcp).
        exists k. split; [done|]. split; [done|]. by apply Hcpf.
      * assert (fbType (feedbackPerDigit !!! i) = feedbackTypeAbsent) as Ha.
        { rewrite Forall_lookup in Hvalid.
          destruct (Hvalid i _ Hi) as [?|[?|?]]; done. }
        apply absentLoop_true. intros k Hk.
        apply contains_correctPositionsOf. by apply Habsent.
Qed.

(** C2. For every report whose kinds are Correct, Present or Absent (a report
    has one entry per position of a 5-digit guess, so at most 5 entries) and
    every candidate list, [incorporateFeedback] returns, in their order,
    exactly the candidates that are consistent with the report: the fed-back
    digit at every Correct position; the digit of every Present position at
    some other position that is not a Correct one; no occurrence of the digit
    of an Absent position outside the Correct positions. *)
Theorem incorporateFeedback_exact (feedbackPerDigit : list feedback) (candidates : list N) :
  Forall validKind feedbackPerDigit →
  (length feedbackPerDigit ≤ 5)%nat →
  ∃ keep : N → bool,
    (∀ c, keep c = true ↔ consistent feedbackPerDigit c) ∧
    incorporateFeedback feedbackPerDigit candidates = Ok (List.filter keep candidates).
Proof.
  intros Hvalid Hlen. exists (consistentb feedbackPerDigit). split.
  - intros c. by apply consistentb_spec.
  - by apply incorporateFeedback_filter.
Qed.

Lemma sampleReport_valid : Forall validKind sampleReport.
Proof.
  unfold sampleReport, validKind.
  repeat (apply Forall_cons_2; [simpl; auto|]). apply Forall_nil_2.
Defined.

Lemma sampleReport_length : (length sampleReport ≤ 5)%nat.
Proof. simpl. lia. Defined.

Lemma incorporateFeedback_exact_witness :
  Forall validKind sampleReport ∧ (length sampleReport ≤ 5)%nat ∧
  ∃ keep : N → bool,
    (∀ c, keep c = true ↔ consistent sampleReport c) ∧
    incorporateFeedback sampleReport sampleCandidates
    = Ok (List.filter keep sampleCandidates).
Proof.
  split; [exact sampleReport_valid|]. split; [exact sampleReport_length|].
  apply (incorporateFeedback_exact sampleReport sampleCandidates
           sampleReport_valid sampleReport_length).
Defined.

Lemma filter_idempotent (p : N → bool) (l : list N) :
  List.filter p (List.filter p l) = List.filter p l.
Proof.
  rewrite filter_filter_andb. apply filter_ext_bool.
  intros x. by destruct (p x).
Qed.

Lemma filter_sublist (p : N → bool) (l : list N) : List.filter p l `sublist_of` l.
Proof.
  induction l as [|x l IH]; simpl; [constructor|].
  destruct (p x); by constructor.
Qed.

(** C8. Filtering is idempotent: on a report of the three kinds (over the
    positions of a 5-digit guess) and any candidate list, the filter returns
    a list, and filtering that list again by the same report returns it
    unchanged. *)
Theorem incorporateFeedback_idempotent (feedbackPerDigit : list feedback)
    (candidates : list N) :
  Forall validKind feedbackPerDigit →
  (length feedbackPerDigit ≤ 5)%nat →
  ∃ newCandidates,
    incorporateFeedback feedbackPerDigit candidates = Ok newCandidates ∧
    incorporateFeedback feedbackPerDigit newCandidates = Ok newCandidates.
Proof.
  intros Hvalid Hlen. eexists. split; [by apply incorporateFeedback_filter|].
  rewrite incorporateFeedback_filter by done. by rewrite filter_idempotent.
Qed.

Lemma incorporateFeedback_idempotent_witness :
  Forall validKind sampleReport ∧ (length sampleReport ≤ 5)%nat ∧
  ∃ newCandidates,
    incorporateFeedback sampleReport sampleCandidates = Ok newCandidates ∧
    incorporateFeedback sampleReport newCandidates = Ok newCandidates.
Proof.
  split; [exact sampleReport_valid|]. split; [exact sampleReport_length|].
  apply (incorporateFeedback_idempotent sampleReport sampleCandidates
           sampleReport_valid sampleReport_length).
Defined.

(** C9. Filtering never grows the candidate list: on a report of the three
    kinds (over the positions of a 5-digit guess) and any candidate list, the
    filter returns a list that is no longer than the input and is a
    subsequence of it. *)
Theorem incorporateFeedback_shrinks (feedbackPerDigit : list feedback)
    (candidates : list N) :
  Forall validKind feedbackPerDigit →
  (length feedbackPerDigit ≤ 5)%nat →
  ∃ newCandidates,
    incorporateFeedback feedbackPerDigit candidates = Ok newCandidates ∧
    (length newCandidates ≤ length candidates)%nat ∧
    newCandidates `sublist_of` candidates.
Proof.
  intros Hvalid Hlen. eexists. split; [by apply incorporateFeedback_filter|].
  pose proof (filter_sublist (consistentb feedbackPerDigit) candidates) as Hsub.
  split; [by apply sublist_length|done].
Qed.

Lemma incorporateFeedback_shrinks_witness :
  Forall validKind sampleReport ∧ (length sampleReport ≤ 5)%nat ∧
  ∃ newCandidates,
    incorporateFeedback sampleReport sampleCandidates = Ok newCandidates ∧
    (length newCandidates ≤ length sampleCandidates)%nat ∧
    newCandidates `sublist_of` sampleCandidates.
Proof.
  split; [exact sampleReport_valid|]. split; [exact sampleReport_length|].
  apply (incorporateFeedback_shrinks sampleReport sampleCandidates
           sampleReport_valid sampleReport_length).
Defined.

Example incorporateFeedback_sample :
  incorporateFeedback sampleReport sampleCandidates = Ok [41124; 47127; 41124].
Proof. vm_compute. reflexivity. Qed.

(** ** The solution against its own feedback *)

Lemma getFeedbackPerDigit_codeReport (g s : N) :
  getFeedbackPerDigit (getDigits g 5) (getDigits s 5) = Ok (codeReport g s).
Proof.
  rewrite getFeedbackPerDigit_spec by (by rewrite !length_getDigits_5).
  by rewrite length_getDigits_5.
Qed.

Lemma length_codeReport (g s : N) : length (codeReport g s) = 5%nat.
Proof. reflexivity. Qed.

Lemma codeReport_valid (g s : N) : Forall validKind (codeReport g s).
Proof.
  apply Forall_fmap, Forall_seq. intros i _. simpl.
  unfold validKind, codeFeedback, expectedFeedback, expectedKind.
  repeat case_decide; simpl; auto.
Qed.

(** Outside the case the code mishandles, the two reports are the same. *)
Lemma codeReport_expected (g s : N) :
  ¬ agree (getDigits g 5) (getDigits s 5) 4
  ∨ (∀ i, agree (getDigits g 5) (getDigits s 5) i) →
  codeReport g s = expectedReport g s.
Proof.
  intros Hcase. unfold codeReport, expectedReport.
  apply list_fmap_ext. intros _ i _. unfold codeFeedback.
  rewrite length_getDigits_5. simpl.
  case_decide as Hc; [|done]. destruct Hc as [Habs Hlast].
  destruct Hcase as [Hne|Hall]; [done|].
  specialize (Hall i). apply expectedKind_Correct in Hall.
  rewrite Hall in Habs. done.
Qed.

(** The report of the two-pass rule never rules the solution out. *)
Lemma expectedReport_consistent (g s : N) : consistent (expectedReport g s) s.
Proof.
  set (gd := getDigits g 5). set (sd := getDigits s 5).
  assert (length sd = 5%nat) as Hsd by apply length_getDigits_5.
  assert (∀ k, correctAt (expectedReport g s) k ↔ (k < 5)%nat ∧ agree gd sd k) as Hcorrect.
  { intros k. rewrite correctAt_lookup_total. unfold expectedReport.
    rewrite length_fmap, length_seq. split; intros [Hk Hc]; (split; [done|]).
    - rewrite lookup_total_tabulate in Hc by done. by apply expectedKind_Correct in Hc.
    - rewrite lookup_total_tabulate by done. by apply expectedKind_Correct. }
  intros i f Hi. unfold expectedReport in Hi.
  rewrite list_lookup_fmap in Hi.
  destruct (seq 0 5 !! i) as [i'|] eqn:Hseq; [|done].
  apply lookup_seq in Hseq as [-> Hlt]. simpl in Hi. injection Hi as <-.
  fold gd sd. unfold expectedFeedback. cbn [digit fbType].
  split; [|split]; intros Hkind.
  - apply expectedKind_Correct in Hkind. unfold agree in Hkind. rewrite Hkind.
    apply list_lookup_lookup_total_lt. lia.
  - unfold expectedKind in Hkind. case_decide; [done|].
    case_decide as Hp; [|done].
    apply Exists_exists in Hp as (j & Hj & Hnj & Hsj).
    apply elem_of_seq in Hj. exists j.
    split; [rewrite <- Hsj; apply list_lookup_lookup_total_lt; lia|].
    split.
    + intros ->. apply Hnj. unfold agree. by rewrite Hsj.
    + intros [_ ?]%Hcorrect. done.
  - intros k Hk. apply Hcorrect.
    assert (k < 5)%nat as Hk5 by (rewrite <- Hsd; by eapply lookup_lt_Some).
    split; [done|]. destruct (decide (gd !!! k = sd !!! k)) as [|Hnk]; [done|].
    exfalso. unfold expectedKind in Hkind. case_decide; [done|].
    case_decide as Hp; [done|]. apply Hp, Exists_exists. exists k.
    split; [apply elem_of_seq; lia|]. split; [done|].
    by apply list_lookup_total_correct.
Qed.

(** So the filter keeps the solution whenever the code's report is the report
    of the rule: when guess and solution differ in the last stored position
    (the leading digit), or agree everywhere. *)
Lemma solution_retained (g s : N) (candidates : list N) :
  s ∈ candidates →
  ¬ agree (getDigits g 5) (getDigits s 5) 4
  ∨ (∀ i, agree (getDigits g 5) (getDigits s 5) i) →
  ∃ newCandidates,
    (getFeedbackPerDigit (getDigits g 5) (getDigits s 5)
       ≫= λ feedbackPerDigit, incorporateFeedback feedbackPerDigit candidates)
    = Ok newCandidates ∧ s ∈ newCandidates.
Proof.
  intros Hs Hcase. eexists. split.
  - rewrite getFeedbackPerDigit_codeReport, bind_Ok.
    apply incorporateFeedback_filter; [apply codeReport_valid|].
    by rewrite length_codeReport.
  - apply list_elem_of_In, List.filter_In. split; [by apply list_elem_of_In|].
    apply consistentb_spec; [apply codeReport_valid|].
    rewrite codeReport_expected by done. apply expectedReport_consistent.
Qed.

(** C4, at the guess 11113 against the solution 10007, both in the candidate
    list. The leading 1 is Correct and sits in the last stored position, so
    the Absent entries of the report come out as [{0, Absent}] (the slip of
    [getFeedbackPerDigit]); the filter then rejects every candidate with a 0
    outside the Correct position, and with them the solution itself. *)
Theorem solution_eliminated_by_own_feedback :
  let candidates := [10007; 11113] in
  10007 ∈ candidates ∧
  ∃ newCandidates,
    (getFeedbackPerDigit (getDigits 11113 5) (getDigits 10007 5)
       ≫= λ feedbackPerDigit, incorporateFeedback feedbackPerDigit candidates)
    = Ok newCandidates ∧ 10007 ∉ newCandidates.
Proof.
  split; [apply list_elem_of_here|].
  exists [11113]. split; [vm_compute; reflexivity|].
  intros Hin%list_elem_of_singleton. discriminate Hin.
Qed.

(** ** Simulation heuristic *)

Lemma forRange_pure {S A : Type} (body : S → A → outcome S) (f : S → A → S)
    (xs : list A) (s : S) :
  (∀ s x, x ∈ xs → body s x = Ok (f s x)) →
  forRange xs body s = Ok (foldl f s xs).
Proof.
  revert s. induction xs as [|x rest IH]; intros s Hbody; simpl; [done|].
  rewrite Hbody by apply list_elem_of_here. rewrite bind_Ok.
  apply IH. intros s' y Hy. apply Hbody. by apply list_elem_of_further.
Qed.

Lemma sumOver_cons {A : Type} (h : A → N) (x : A) (xs : list A) :
  sumOver h (x :: xs) = h x + sumOver h xs.
Proof. reflexivity. Qed.

Lemma wrap64_small (x : N) : x < 2 ^ 64 → wrap64 x = x.
Proof. intros Hx. unfold wrap64. by apply N.mod_small. Qed.

(** An accumulation in [uint64] is the sum as long as the sum fits. *)
Lemma foldl_wrap64_sum {A : Type} (h : A → N) (xs : list A) (a : N) :
  a + sumOver h xs < 2 ^ 64 →
  foldl (λ acc x, wrap64 (acc + h x)) a xs = a + sumOver h xs.
Proof.
  revert a. induction xs as [|x rest IH]; intros a Hfit.
  - cbn. by rewrite N.add_0_r.
  - rewrite sumOver_cons in *. cbn [foldl].
    rewrite wrap64_small by lia. rewrite IH by lia. lia.
Qed.

Lemma sumOver_bound {A : Type} (h : A → N) (xs : list A) (b : N) :
  (∀ x, x ∈ xs → h x ≤ b) → sumOver h xs ≤ N.of_nat (length xs) * b.
Proof.
  induction xs as [|x rest IH]; intros Hb; [cbn; lia|].
  pose proof (Hb x (list_elem_of_here _ _)).
  assert (sumOver h rest ≤ N.of_nat (length rest) * b) as Hrest.
  { apply IH. intros y Hy. apply Hb. by apply list_elem_of_further. }
  rewrite sumOver_cons. cbn [length]. lia.
Qed.

Lemma sumOver_elem {A : Type} (h : A → N) (xs : list A) (x : A) :
  x ∈ xs → h x ≤ sumOver h xs.
Proof.
  induction 1 as [x rest|x y rest Hin IH]; rewrite sumOver_cons; lia.
Qed.

Lemma remainingAfter_le (candidates : list N) (g s : N) :
  remainingAfter candidates g s ≤ N.of_nat (length candidates).
Proof.
  unfold remainingAfter.
  pose proof (sublist_length _ _ (filter_sublist (consistentb (codeReport g s)) candidates)).
  lia.
Qed.

Lemma remainingAfter_self (candidates : list N) (g : N) :
  g ∈ candidates → 1 ≤ remainingAfter candidates g g.
Proof.
  intros Hg. unfold remainingAfter.
  assert (g ∈ List.filter (consistentb (codeReport g g)) candidates) as Hin.
  { apply list_elem_of_In, List.filter_In. split; [by apply list_elem_of_In|].
    apply consistentb_spec; [apply codeReport_valid|].
    rewrite codeReport_expected by (by right).
    apply expectedReport_consistent. }
  destruct (List.filter _ _); [by apply elem_of_nil in Hin|]. simpl. lia.
Qed.

Lemma simulationScore_bound (candidates : list N) (g : N) :
  simulationScore candidates g
  ≤ N.of_nat (length candidates) * N.of_nat (length candidates).
Proof. apply sumOver_bound. intros s _. apply remainingAfter_le. Qed.

(** [evaluateGuess] of the simulation heuristic returns that sum (a list
    shorter than [2^32] keeps it below [2^64]). *)
Lemma simulation_evaluateGuess_sum (candidates : list N) (g : N) :
  N.of_nat (length candidates) < 2 ^ 32 →
  Simulation.evaluateGuess g candidates = Ok (simulationScore candidates g).
Proof.
  intros Hlen. unfold Simulation.evaluateGuess.
  rewrite (forRange_pure _ (λ acc s, wrap64 (acc + remainingAfter candidates g s))).
  - f_equal. rewrite foldl_wrap64_sum; [done|].
    pose proof (simulationScore_bound candidates g) as Hb.
    unfold simulationScore in Hb.
    assert (N.of_nat (length candidates) * N.of_nat (length candidates)
            < 2 ^ 32 * 2 ^ 32) by nia.
    change (2 ^ 64) with (2 ^ 32 * 2 ^ 32). lia.
  - intros acc s _. rewrite getFeedbackPerDigit_codeReport, bind_Ok.
    rewrite incorporateFeedback_filter
      by (apply codeReport_valid || by rewrite length_codeReport).
    by rewrite bind_Ok.
Qed.

Lemma simulationScore_pos (candidates : list N) (g : N) :
  g ∈ candidates → 0 < simulationScore candidates g.
Proof.
  intros Hg. pose proof (remainingAfter_self candidates g Hg).
  pose proof (sumOver_elem (remainingAfter candidates g) candidates g Hg).
  unfold simulationScore. lia.
Qed.

Lemma last_cons_default {A : Type} (x : A) (xs : list A) (a b : A) :
  List.last (x :: xs) a = List.last (x :: xs) b.
Proof.
  revert x. induction xs as [|y rest IH]; intros x; [done|].
  change (List.last (y :: rest) a = List.last (y :: rest) b). apply IH.
Qed.

Lemma forRange_last {A : Type} (body : A → A → outcome A) (xs : list A) (a : A) :
  (∀ b x, x ∈ xs → body b x = Ok x) →
  forRange xs body a = Ok (List.last xs a).
Proof.
  revert a. induction xs as [|x rest IH]; intros a Hbody; [done|].
  cbn [forRange]. rewrite Hbody by apply list_elem_of_here. rewrite bind_Ok.
  rewrite IH by (intros b y Hy; apply Hbody; by apply list_elem_of_further).
  destruct rest as [|y rest]; [done|].
  change (List.last (x :: y :: rest) a) with (List.last (y :: rest) a).
  by rewrite (last_cons_default y rest x a).
Qed.

(** The selector of the simulation heuristic compares every score with the
    never-updated [bestGuessValue = 0], and every score is positive: it
    returns the last candidate (and 0 on the empty list). *)
Lemma simulation_findBestGuess_last (candidates : list N) :
  N.of_nat (length candidates) < 2 ^ 32 →
  Simulation.findBestGuess candidates = Ok (List.last candidates 0).
Proof.
  intros Hlen. unfold Simulation.findBestGuess. cbv zeta.
  apply forRange_last. intros b g Hg.
  rewrite simulation_evaluateGuess_sum, bind_Ok by done.
  by rewrite decide_True by (by apply simulationScore_pos).
Qed.

(** C3, at the candidates 34763, 77543, 12379 (pairwise different leading
    digits). Their scores, as [evaluateGuess] computes them, are 3, 3 and 5:
    the minimal sum is 3 and its first holder is 34763. [findBestGuess]
    returns 12379, the candidate with the largest sum: it keeps every
    candidate whose sum exceeds [bestGuessValue], which it never updates. *)
Theorem simulation_findBestGuess_not_minimal :
  let candidates := [34763; 77543; 12379] in
  Simulation.evaluateGuess 34763 candidates = Ok 3 ∧
  Simulation.evaluateGuess 77543 candidates = Ok 3 ∧
  Simulation.evaluateGuess 12379 candidates = Ok 5 ∧
  firstMin (simulationScore candidates) candidates 34763 ∧
  Simulation.findBestGuess candidates = Ok 12379.
Proof.
  cbv zeta. split; [vm_compute; reflexivity|]. split; [vm_compute; reflexivity|].
  split; [vm_compute; reflexivity|]. split; [|vm_compute; reflexivity].
  exists 0%nat. split; [done|]. split.
  - intros c Hc. repeat (apply elem_of_cons in Hc as [->|Hc]);
      [vm_compute; discriminate..|by apply elem_of_nil in Hc].
  - intros j c Hj. lia.
Qed.

(** ** Frequency heuristic *)

Lemma digitCount_le (candidates : list N) (i : nat) (d : N) :
  digitCount candidates i d ≤ N.of_nat (length candidates).
Proof.
  unfold digitCount.
  pose proof (sublist_length _ _
    (filter_sublist (λ c, bool_decide (getDigits c 5 !! i = Some d)) candidates)).
  lia.
Qed.

Lemma digitCount_snoc (processed : list N) (num : N) (i : nat) (d : N) :
  digitCount (processed ++ [num]) i d
  = digitCount processed i d + (if decide (getDigits num 5 !! i = Some d) then 1 else 0).
Proof.
  unfold digitCount. rewrite List.filter_app, length_app. cbn [List.filter].
  case_decide.
  - rewrite bool_decide_true by done. simpl. lia.
  - rewrite bool_decide_false by done. simpl. lia.
Qed.

Lemma length_increment (result : list (gmap N N)) (j : nat) (d : N) :
  length (Frequency.increment result j d) = length result.
Proof. unfold Frequency.increment. apply length_insert. Qed.

Lemma frequencyAt_increment (result : list (gmap N N)) (j : nat) (d : N) (j' : nat) (d' : N) :
  (j < length result)%nat →
  frequencyAt (Frequency.increment result j d) j' d'
  = if decide (j' = j ∧ d' = d) then wrap64 (frequencyAt result j d + 1)
    else frequencyAt result j' d'.
Proof.
  intros Hj. unfold frequencyAt, Frequency.increment. cbv zeta.
  destruct (decide (j' = j)) as [->|Hne].
  - rewrite list_lookup_total_insert_eq by done.
    destruct (decide (d' = d)) as [->|Hd].
    + rewrite lookup_insert_eq. by rewrite decide_True.
    + rewrite lookup_insert_ne by done. rewrite decide_False; [done|]. by intros [_ ?].
  - rewrite list_lookup_total_insert_ne by done.
    rewrite decide_False; [done|]. by intros [? _].
Qed.

(** The inner loop of [findDigitFrequencyPerPosition] for one number, after
    [k] of its digits. *)
Lemma countDigits_spec (digits : list N) (result : list (gmap N N)) (k : nat) :
  (k ≤ length result)%nat →
  let result' := foldl (λ result j, Frequency.increment result j (digits !!! j))
                       result (seq 0 k) in
  length result' = length result ∧
  ∀ j d, frequencyAt result' j d
         = if decide ((j < k)%nat ∧ d = digits !!! j)
           then wrap64 (frequencyAt result j d + 1)
           else frequencyAt result j d.
Proof.
  cbv zeta. induction k as [|k IH]; intros Hk.
  - split; [done|]. intros j d. rewrite decide_False; [done|]. intros [? _]. lia.
  - rewrite foldl_seq_S. destruct IH as [Hlen Hfreq]; [lia|].
    split; [by rewrite length_increment|].
    intros j d. rewrite frequencyAt_increment by lia.
    rewrite !Hfreq. clear Hfreq.
    destruct (decide (j = k)) as [->|Hne].
    + rewrite (decide_False (P := (k < k)%nat ∧ _)) by lia.
      destruct (decide (d = digits !!! k)) as [->|Hd].
      * rewrite (decide_True (P := k = k ∧ _)) by done.
        rewrite decide_True; [done|]. split; [lia|done].
      * rewrite (decide_False (P := k = k ∧ _)) by (by intros [_ ?]).
        rewrite decide_False by lia.
        rewrite decide_False; [done|]. by intros [_ ?].
    + rewrite (decide_False (P := j = k ∧ _)) by (by intros [? _]).
      destruct (decide ((j < k)%nat ∧ d = digits !!! j)) as [[Hj Hd]|Hn].
      * rewrite decide_True; [done|]. split; [lia|done].
      * rewrite decide_False; [done|].
        intros [Hj Hd]. apply Hn. split; [lia|done].
Qed.

Lemma frequencyInv_step (processed : list N) (num : N) (result : list (gmap N N)) :
  N.of_nat (length processed) + 1 < 2 ^ 64 →
  frequencyInv processed result →
  frequencyInv (processed ++ [num])
    (foldl (λ result j, Frequency.increment result j (getDigits num 5 !!! j))
           result (seq 0 (length (getDigits num 5)))).
Proof.
  intros Hfit [Hlen Hfreq]. rewrite length_getDigits_5.
  destruct (countDigits_spec (getDigits num 5) result 5) as [Hlen' Hfreq']; [lia|].
  split; [by rewrite Hlen'|].
  intros j d Hj. rewrite Hfreq', digitCount_snoc, Hfreq by done.
  assert (getDigits num 5 !! j = Some (getDigits num 5 !!! j)) as Hdj.
  { apply list_lookup_lookup_total_lt. rewrite length_getDigits_5. lia. }
  pose proof (digitCount_le processed j d).
  destruct (decide (d = getDigits num 5 !!! j)) as [Hd|Hd].
  - rewrite decide_True by done. rewrite decide_True by congruence.
    apply wrap64_small. lia.
  - rewrite decide_False by (by intros [_ ?]).
    rewrite decide_False; [lia|]. rewrite Hdj. congruence.
Qed.

Lemma frequencyInv_foldl (rest processed : list N) (result : list (gmap N N)) :
  N.of_nat (length (processed ++ rest)) < 2 ^ 64 →
  frequencyInv processed result →
  frequencyInv (processed ++ rest)
    (foldl (λ result num,
              let digits := getDigits num 5 in
              foldl (λ result j, Frequency.increment result j (digits !!! j))
                    result (seq 0 (length digits)))
           result rest).
Proof.
  revert processed result.
  induction rest as [|num rest IH]; intros processed result Hfit Hinv.
  - by rewrite app_nil_r.
  - cbn [foldl]. cbv zeta.
    replace (processed ++ num :: rest) with ((processed ++ [num]) ++ rest) in *
      by (by rewrite <- app_assoc).
    apply IH; [done|]. apply frequencyInv_step; [|done].
    rewrite !length_app in Hfit. simpl in Hfit. lia.
Qed.

Lemma findDigitFrequencyPerPosition_spec (candidates : list N) :
  N.of_nat (length candidates) < 2 ^ 64 →
  frequencyInv candidates (Frequency.findDigitFrequencyPerPosition candidates 5).
Proof.
  intros Hfit. unfold Frequency.findDigitFrequencyPerPosition. cbv zeta.
  apply (frequencyInv_foldl candidates [] _ Hfit).
  split; [done|]. intros j d Hj. unfold frequencyAt.
  rewrite lookup_total_replicate_2 by (simpl; lia). by rewrite lookup_empty.
Qed.

Lemma length_findDigitFrequencyPerPosition (candidates : list N) :
  length (Frequency.findDigitFrequencyPerPosition candidates 5) = 5%nat.
Proof.
  unfold Frequency.findDigitFrequencyPerPosition. cbv zeta.
  generalize (replicate (N.to_nat 5) (∅ : gmap N N)), (eq_refl : length (replicate (N.to_nat 5) (∅ : gmap N N)) = 5%nat).
  induction candidates as [|num rest IH]; intros result Hlen; [done|].
  cbn [foldl]. apply IH. rewrite length_getDigits_5.
  destruct (countDigits_spec (getDigits num 5) result 5) as [-> _]; [lia|done].
Qed.

Lemma frequencyScore_bound (candidates : list N) (g : N) :
  frequencyScore candidates g ≤ 5 * N.of_nat (length candidates).
Proof.
  unfold frequencyScore.
  pose proof (sumOver_bound
    (λ i, digitCount candidates i (getDigits g 5 !!! i)) (seq 0 5)
    (N.of_nat (length candidates))) as Hb.
  rewrite length_seq in Hb. apply Hb. intros i _. apply digitCount_le.
Qed.

(** [evaluateGuess] of the frequency heuristic, on maps that hold the digit
    counts of the candidates, returns the frequency score. *)
Lemma frequency_evaluateGuess_score (candidates : list N)
    (digitFrequencyPerPosition : list (gmap N N)) (g : N) :
  5 * N.of_nat (length candidates) < 2 ^ 64 →
  frequencyInv candidates digitFrequencyPerPosition →
  Frequency.evaluateGuess g digitFrequencyPerPosition
  = Ok (frequencyScore candidates g).
Proof.
  intros Hfit [Hlen Hfreq]. unfold Frequency.evaluateGuess. cbv zeta.
  rewrite length_getDigits_5.
  rewrite (forRange_pure _
    (λ acc i, wrap64 (acc + digitCount candidates i (getDigits g 5 !!! i)))).
  - f_equal. rewrite foldl_wrap64_sum; [done|].
    pose proof (frequencyScore_bound candidates g) as Hb.
    unfold frequencyScore in Hb. lia.
  - intros acc i Hi%elem_of_seq.
    rewrite index_lt by lia. rewrite bind_Ok.
    f_equal. f_equal. f_equal. apply (Hfreq i). lia.
Qed.

Lemma firstMax_singleton (score : N → N) (x : N) : firstMax score [x] x.
Proof.
  exists 0%nat. split; [done|]. split.
  - intros c ->%list_elem_of_singleton. lia.
  - intros j c Hj. lia.
Qed.

Lemma firstMax_snoc_keep (score : N → N) (xs : list N) (b x : N) :
  firstMax score xs b → score x ≤ score b → firstMax score (xs ++ [x]) b.
Proof.
  intros (k & Hk & Hmax & Hfirst) Hx. exists k.
  pose proof (lookup_lt_Some _ _ _ Hk) as Hlt.
  split; [by rewrite lookup_app_l|]. split.
  - intros c [Hc| ->%list_elem_of_singleton]%elem_of_app; [by apply Hmax|done].
  - intros j c Hj Hc. rewrite lookup_app_l in Hc by lia. by eapply Hfirst.
Qed.

Lemma firstMax_snoc_new (score : N → N) (xs : list N) (b x : N) :
  firstMax score xs b → score b < score x → firstMax score (xs ++ [x]) x.
Proof.
  intros (k & Hk & Hmax & Hfirst) Hx. exists (length xs).
  split; [by rewrite list_lookup_middle|]. split.
  - intros c [Hc| ->%list_elem_of_singleton]%elem_of_app; [|lia].
    specialize (Hmax c Hc). lia.
  - intros j c Hj Hc. rewrite lookup_app_l in Hc by lia.
    assert (score c ≤ score b) by (eapply Hmax, list_elem_of_lookup_2, Hc). lia.
Qed.

(** The loop of the frequency selector keeps the first maximum of what it
    has seen, together with its score. *)
Lemma frequency_loop_firstMax (score : N → N) (evaluate : N → outcome N)
    (rest seen : list N) (best : N) :
  (∀ g, evaluate g = Ok (score g)) →
  firstMax score seen best →
  ∃ b,
    forRange rest (λ '(bestGuess, bestGuessValue) guess,
        guessValue ← evaluate guess;
        Ok (if decide (bestGuessValue < guessValue)
            then (guess, guessValue) else (bestGuess, bestGuessValue)))
      (best, score best)
    = Ok (b, score b)
    ∧ firstMax score (seen ++ rest) b.
Proof.
  intros Heval. revert seen best.
  induction rest as [|x rest IH]; intros seen best Hbest.
  - exists best. by rewrite app_nil_r.
  - cbn [forRange]. rewrite Heval, !bind_Ok.
    replace (seen ++ x :: rest) with ((seen ++ [x]) ++ rest)
      by (by rewrite <- app_assoc).
    case_decide as Hlt.
    + apply IH. by eapply firstMax_snoc_new.
    + apply IH. apply firstMax_snoc_keep; [done|lia].
Qed.

Lemma firstMax_elem_of (score : N → N) (xs : list N) (b : N) :
  firstMax score xs b → b ∈ xs.
Proof. intros (k & Hk & _). by eapply list_elem_of_lookup_2. Qed.

(** C5. Under the frequency heuristic, for every non-empty candidate list
    (short enough for the sums to fit [uint64]), the score [evaluateGuess]
    gives to any guess is the sum, over the 5 positions, of the number of
    candidates that have the digit of the guess at that position, and the
    selector returns the candidate of maximal score, the first one in list
    order among equals. *)
Theorem frequency_selectBestGuess_firstMax (candidates : list N) :
  candidates ≠ [] →
  5 * N.of_nat (length candidates) < 2 ^ 64 →
  (∀ g, Frequency.evaluateGuess g (Frequency.findDigitFrequencyPerPosition candidates 5)
        = Ok (frequencyScore candidates g)) ∧
  ∃ best,
    Frequency.selectBestGuess candidates = Ok best ∧
    firstMax (frequencyScore candidates) candidates best.
Proof.
  intros Hne Hfit.
  assert (∀ g, Frequency.evaluateGuess g
                 (Frequency.findDigitFrequencyPerPosition candidates 5)
               = Ok (frequencyScore candidates g)) as Heval.
  { intros g. apply frequency_evaluateGuess_score; [done|].
    apply findDigitFrequencyPerPosition_spec. lia. }
  split; [done|].
  unfold Frequency.selectBestGuess, Frequency.findBestGuess.
  destruct candidates as [|first rest]; [done|].
  set (candidates := first :: rest) in *.
  change (index candidates 0) with (Ok first : outcome N).
  rewrite bind_Ok, Heval, bind_Ok.
  change (drop 1 candidates) with rest.
  destruct (frequency_loop_firstMax (frequencyScore candidates)
              (λ g, Frequency.evaluateGuess g
                      (Frequency.findDigitFrequencyPerPosition candidates 5))
              rest [first] first Heval (firstMax_singleton _ _))
    as (b & Hloop & Hmax).
  exists b. rewrite Hloop, bind_Ok. done.
Qed.

Lemma frequency_selectBestGuess_firstMax_witness :
  samplePrimes ≠ [] ∧ 5 * N.of_nat (length samplePrimes) < 2 ^ 64 ∧
  ∃ best,
    Frequency.selectBestGuess samplePrimes = Ok best ∧
    firstMax (frequencyScore samplePrimes) samplePrimes best.
Proof.
  split; [discriminate|]. split; [reflexivity|].
  apply (frequency_selectBestGuess_firstMax samplePrimes);
    [discriminate|reflexivity].
Defined.

Example frequency_selectBestGuess_sample :
  Frequency.selectBestGuess samplePrimes = Ok 10007 ∧
  frequencyScore samplePrimes <$> samplePrimes = [17; 17; 9; 17; 17].
Proof. split; vm_compute; reflexivity. Qed.

(** ** The selectors on empty and non-empty lists *)

Lemma frequency_evaluateGuess_Ok (g : N) (digitFrequencyPerPosition : list (gmap N N)) :
  length digitFrequencyPerPosition = 5%nat →
  ∃ v, Frequency.evaluateGuess g digitFrequencyPerPosition = Ok v.
Proof.
  intros Hlen. unfold Frequency.evaluateGuess. cbv zeta. eexists.
  apply (forRange_pure _
    (λ acc i, wrap64 (acc + default 0 ((digitFrequencyPerPosition !!! i)
                                         !! (getDigits g 5 !!! i))))).
  intros acc i Hi%elem_of_seq. rewrite length_getDigits_5 in Hi.
  by rewrite index_lt by lia.
Qed.

(** Whatever the scores are, the loop of the frequency selector ends on the
    initial guess or on one of the candidates it visits. *)
Lemma frequency_loop_member (evaluate : N → outcome N) (rest : list N) (best v : N) :
  (∀ g, ∃ w, evaluate g = Ok w) →
  ∃ b w,
    forRange rest (λ '(bestGuess, bestGuessValue) guess,
        guessValue ← evaluate guess;
        Ok (if decide (bestGuessValue < guessValue)
            then (guess, guessValue) else (bestGuess, bestGuessValue)))
      (best, v)
    = Ok (b, w)
    ∧ b ∈ best :: rest.
Proof.
  intros Heval. revert best v.
  induction rest as [|x rest IH]; intros best v.
  - exists best, v. split; [done|apply list_elem_of_here].
  - cbn [forRange]. destruct (Heval x) as [w ->]. rewrite !bind_Ok.
    case_decide.
    + destruct (IH x w) as (b & w' & -> & Hb). exists b, w'.
      split; [done|]. by apply list_elem_of_further.
    + destruct (IH best v) as (b & w' & -> & Hb). exists b, w'.
      split; [done|]. apply elem_of_cons in Hb as [->|Hb].
      * apply list_elem_of_here.
      * by do 2 apply list_elem_of_further.
Qed.

Lemma frequency_selectBestGuess_member (candidates : list N) :
  candidates ≠ [] →
  ∃ best, Frequency.selectBestGuess candidates = Ok best ∧ best ∈ candidates.
Proof.
  intros Hne.
  pose proof (length_findDigitFrequencyPerPosition candidates) as Hlen.
  unfold Frequency.selectBestGuess, Frequency.findBestGuess.
  destruct candidates as [|first rest]; [done|].
  set (candidates := first :: rest) in *.
  change (index candidates 0) with (Ok first : outcome N). rewrite bind_Ok.
  destruct (frequency_evaluateGuess_Ok first _ Hlen) as [v ->]. rewrite bind_Ok.
  change (drop 1 candidates) with rest.
  destruct (frequency_loop_member
              (λ g, Frequency.evaluateGuess g
                      (Frequency.findDigitFrequencyPerPosition candidates 5))
              rest first v) as (b & w & Hloop & Hb).
  { intros g. by apply frequency_evaluateGuess_Ok. }
  exists b. rewrite Hloop, bind_Ok. done.
Qed.

Lemma last_elem_of (xs : list N) (a : N) : xs ≠ [] → List.last xs a ∈ xs.
Proof.
  induction xs as [|x rest IH]; intros Hne; [done|].
  destruct rest as [|y rest]; [apply list_elem_of_here|].
  apply list_elem_of_further.
  change (List.last (x :: y :: rest) a) with (List.last (y :: rest) a).
  by apply IH.
Qed.

(** C10, as the claim states it, fails on the empty list under the
    simulation heuristic: the selector returns 0 there, it does not fail. *)
Lemma simulation_findBestGuess_empty_returns :
  Simulation.findBestGuess [] = Ok 0 ∧ ¬ failed (Simulation.findBestGuess []).
Proof. split; [reflexivity|]. intros []. Qed.

(** C10, amended. The selectors have no error result of their own for the
    empty list: there the simulation selector returns 0 and the frequency
    selector panics on [candidates[0]]. On every non-empty candidate list
    both selectors return a member of the list (the simulation selector on
    lists shorter than [2^32], where its [uint64] sums cannot wrap). *)
Theorem findBestGuess_member :
  Simulation.findBestGuess [] = Ok 0 ∧
  Frequency.selectBestGuess [] = Panic ∧
  ∀ candidates : list N, candidates ≠ [] →
    (N.of_nat (length candidates) < 2 ^ 32 →
     ∃ best, Simulation.findBestGuess candidates = Ok best ∧ best ∈ candidates) ∧
    (∃ best, Frequency.selectBestGuess candidates = Ok best ∧ best ∈ candidates).
Proof.
  split; [reflexivity|]. split; [reflexivity|].
  intros candidates Hne. split.
  - intros Hlen. exists (List.last candidates 0).
    split; [by apply simulation_findBestGuess_last|by apply last_elem_of].
  - by apply frequency_selectBestGuess_member.
Qed.

Lemma findBestGuess_member_witness :
  samplePrimes ≠ [] ∧ N.of_nat (length samplePrimes) < 2 ^ 32 ∧
  (∃ best, Simulation.findBestGuess samplePrimes = Ok best ∧ best ∈ samplePrimes) ∧
  (∃ best, Frequency.selectBestGuess samplePrimes = Ok best ∧ best ∈ samplePrimes).
Proof.
  assert (samplePrimes ≠ []) as Hne by discriminate.
  assert (N.of_nat (length samplePrimes) < 2 ^ 32) as Hlen by reflexivity.
  split; [exact Hne|]. split; [exact Hlen|].
  destruct findBestGuess_member as (_ & _ & Hmember).
  destruct (Hmember samplePrimes Hne) as [Hsim Hfreq].
  split; [exact (Hsim Hlen)|exact Hfreq].
Defined.

(** ** Prime generator *)

Lemma primeb_spec (m : nat) : primeb m = true ↔ isPrimeNat m.
Proof.
  unfold primeb, isPrimeNat.
  rewrite andb_true_iff, bool_decide_eq_true, List.forallb_forall.
  split; intros [Hm Hd]; (split; [done|]).
  - intros d Hd2 Hdm Hdiv. specialize (Hd d).
    rewrite in_seq in Hd. specialize (Hd ltac:(lia)).
    apply negb_true_iff, Nat.eqb_neq in Hd. apply Hd.
    apply Nat.Lcm0.mod_divide. done.
  - intros d [Hd2 Hdm]%in_seq. apply negb_true_iff, Nat.eqb_neq.
    intros Hmod%Nat.Lcm0.mod_divide. apply (Hd d); [lia|lia|done].
Qed.

Lemma divide_of_nat (d m : nat) :
  N.divide (N.of_nat d) (N.of_nat m) ↔ Nat.divide d m.
Proof.
  split; intros [q Hq].
  - exists (N.to_nat q). lia.
  - exists (N.of_nat q). lia.
Qed.

Lemma isPrime_of_nat (m : nat) : isPrime (N.of_nat m) ↔ isPrimeNat m.
Proof.
  unfold isPrime, isPrimeNat. split; intros [Hm Hd]; (split; [lia|]).
  - intros d Hd2 Hdm Hdiv. apply (Hd (N.of_nat d)); [lia|lia|].
    by apply divide_of_nat.
  - intros d Hd2 Hdm Hdiv. apply (Hd (N.to_nat d)); [lia|lia|].
    apply divide_of_nat. by rewrite N2Nat.id.
Qed.

(** The inner loop clears the entries [j], [j + step], [j + 2 step], ... and
    nothing else, once the fuel covers the slice. *)
Lemma markMultiples_spec (fuel j step : nat) (candidates : list bool) :
  (1 ≤ step)%nat →
  (length candidates ≤ j + fuel * step)%nat →
  length (markMultiplesNat fuel j step candidates) = length candidates ∧
  ∀ k, (k < length candidates)%nat →
    markMultiplesNat fuel j step candidates !!! k
    = if decide ((j ≤ k)%nat ∧ Nat.divide step (k - j)) then false
      else candidates !!! k.
Proof.
  intros Hstep. revert j candidates.
  induction fuel as [|fuel IH]; intros j candidates Hfuel; cbn [markMultiplesNat].
  - split; [done|]. intros k Hk. rewrite decide_False; [done|]. intros [? _]. lia.
  - case_decide as Hj.
    + destruct (IH (j + step)%nat (<[j := false]> candidates)) as [Hlen Hmark].
      { rewrite length_insert. lia. }
      rewrite length_insert in Hlen, Hmark. split; [done|].
      intros k Hk. rewrite (Hmark k Hk).
      destruct (decide (k = j)) as [->|Hne].
      * rewrite decide_False by (intros [? _]; lia).
        rewrite list_lookup_total_insert_eq by done.
        rewrite decide_True; [done|]. split; [lia|].
        rewrite Nat.sub_diag. apply Nat.divide_0_r.
      * rewrite list_lookup_total_insert_ne by done.
        destruct (decide ((j ≤ k)%nat ∧ Nat.divide step (k - j))) as [[Hjk Hdiv]|Hn].
        -- rewrite decide_True; [done|].
           destruct Hdiv as [q Hq].
           assert (q ≠ 0)%nat by (intros ->; lia).
           split; [nia|]. exists (q - 1)%nat. nia.
        -- rewrite decide_False; [done|]. intros [Hjk [q Hq]].
           apply Hn. split; [lia|]. exists (S q). lia.
    + split; [done|]. intros k Hk. rewrite decide_False; [done|]. intros [? _]. lia.
Qed.

Lemma sieveInv_init (n : nat) : sieveInv n 0 (replicate n true).
Proof.
  split; [apply length_replicate|]. intros k Hk.
  rewrite lookup_total_replicate_2 by done. split; [|done].
  intros _ q Hq2 Hq. lia.
Qed.

Lemma sieveInv_prime (n i : nat) (candidates : list bool) :
  sieveInv n i candidates → (i < n)%nat →
  candidates !!! i = true ↔ isPrimeNat (i + 2).
Proof.
  intros [_ Hinv] Hi. rewrite (Hinv i Hi). unfold isPrimeNat. split.
  - intros Hq. split; [lia|]. intros d Hd2 Hdm Hdiv.
    specialize (Hq d Hd2 Hdm Hdiv). lia.
  - intros [_ Hd] q Hq2 Hq Hdiv. exfalso. by apply (Hd q).
Qed.

Lemma sieveInv_skip (n i : nat) (candidates : list bool) :
  sieveInv n i candidates → (i < n)%nat →
  candidates !!! i ≠ true →
  sieveInv n (S i) candidates.
Proof.
  intros [Hlen Hinv] Hi Hfalse. split; [done|]. intros k Hk.
  rewrite (Hinv k Hk). split.
  - intros Hq q Hq2 Hqi Hdiv.
    destruct (decide (q = i + 2)%nat) as [->|Hne]; [|apply Hq; [done|lia|done]].
    exfalso. apply Hfalse. apply (Hinv i Hi).
    intros q' Hq2' Hq' Hdiv'.
    assert (q' = k + 2)%nat as Heq.
    { apply Hq; [done|done|]. by etrans. }
    apply Nat.divide_pos_le in Hdiv; lia.
  - intros Hq q Hq2 Hqi Hdiv. apply Hq; [done|lia|done].
Qed.

Lemma sieveInv_mark (n i : nat) (candidates : list bool) :
  sieveInv n i candidates → (i < n)%nat →
  sieveInv n (S i)
    (markMultiplesNat (length candidates) ((i + 2) * 2 - 2) (i + 2) candidates).
Proof.
  intros [Hlen Hinv] Hi.
  destruct (markMultiples_spec (length candidates) ((i + 2) * 2 - 2) (i + 2) candidates)
    as [Hlen' Hmark]; [lia|nia|].
  split; [by rewrite Hlen'|]. intros k Hk.
  rewrite Hmark by lia.
  assert (((i + 2) * 2 - 2 ≤ k)%nat ∧ Nat.divide (i + 2) (k - ((i + 2) * 2 - 2))
          ↔ Nat.divide (i + 2) (k + 2) ∧ (i + 2 ≠ k + 2)%nat) as Hmarked.
  { split.
    - intros [Hle [q Hq]]. split; [exists (q + 2)%nat; lia|lia].
    - intros [[q Hq] Hne].
      assert (2 ≤ q)%nat by (destruct q as [|[|q]]; lia).
      split; [nia|]. exists (q - 2)%nat. nia. }
  case_decide as Hm.
  - apply Hmarked in Hm as [Hdiv Hne]. split; [done|].
    intros Hq. exfalso. apply Hne. apply Hq; [lia|lia|done].
  - rewrite (Hinv k Hk). split.
    + intros Hq q Hq2 Hqi Hdiv.
      destruct (decide (q = i + 2)%nat) as [->|Hneq]; [|apply Hq; [done|lia|done]].
      destruct (decide (i + 2 = k + 2)%nat) as [|Hne]; [done|].
      exfalso. apply Hm, Hmarked. done.
    + intros Hq q Hq2 Hqi Hdiv. apply Hq; [done|lia|done].
Qed.

(** The outer loop from turn [i] on appends the primes among the values
    [i + 2, ..., n + 1]. *)
Lemma sieveLoop_spec (n len i : nat) (candidates : list bool) (primes : list N) :
  (i + len = n)%nat →
  sieveInv n i candidates →
  sieveLoopNat (seq i len) candidates primes
  = primes ++ (N.of_nat <$> List.filter primeb (seq (i + 2) len)).
Proof.
  revert i candidates primes.
  induction len as [|len IH]; intros i candidates primes Hi Hinv.
  - simpl. by rewrite app_nil_r.
  - cbn [seq sieveLoopNat List.filter].
    pose proof (sieveInv_prime n i candidates Hinv ltac:(lia)) as Hprime.
    rewrite <- primeb_spec in Hprime.
    destruct (candidates !!! i) eqn:Hci.
    + rewrite (proj1 Hprime eq_refl).
      rewrite (IH (S i) _ _ ltac:(lia) (sieveInv_mark n i candidates Hinv ltac:(lia))).
      rewrite fmap_cons, <- app_assoc. done.
    + destruct (primeb (i + 2)) eqn:Hp; [discriminate (proj2 Hprime eq_refl)|].
      apply (IH (S i)); [lia|]. apply sieveInv_skip; [done|lia|].
      by rewrite Hci.
Qed.

(** [sieveNat max] is the list of the primes below [max], in ascending order. *)
Lemma sieve_spec (max : N) :
  sieveNat max = N.of_nat <$> List.filter primeb (seq 2 (N.to_nat max - 2)).
Proof.
  unfold sieveNat. case_decide as Hmax.
  - replace (N.to_nat max - 2)%nat with 0%nat by lia. done.
  - cbv zeta. rewrite length_replicate.
    replace (N.to_nat (max - 2)) with (N.to_nat max - 2)%nat by lia.
    rewrite (sieveLoop_spec (N.to_nat max - 2)); [done|lia|apply sieveInv_init].
Qed.

Lemma StronglySorted_seq (a n : nat) : StronglySorted Nat.lt (seq a n).
Proof.
  revert a. induction n as [|n IH]; intros a; simpl; constructor; [apply IH|].
  apply Forall_forall. intros x Hx%elem_of_seq. unfold Nat.lt. lia.
Qed.

Lemma StronglySorted_filter {A : Type} (R : A → A → Prop) (p : A → bool) (l : list A) :
  StronglySorted R l → StronglySorted R (List.filter p l).
Proof.
  induction 1 as [|x l Hsorted IH Hx]; simpl; [constructor|].
  destruct (p x); [|done]. constructor; [done|].
  rewrite Forall_forall in Hx |- *. intros y Hy. apply Hx.
  by apply list_elem_of_In, List.filter_In, proj1, list_elem_of_In in Hy.
Qed.

Lemma StronglySorted_of_nat (l : list nat) :
  StronglySorted Nat.lt l → StronglySorted N.lt (N.of_nat <$> l).
Proof.
  induction 1 as [|x l Hsorted IH Hx]; simpl; constructor; [done|].
  apply Forall_fmap. eapply Forall_impl; [exact Hx|].
  intros y Hy. simpl. unfold Nat.lt in Hy. lia.
Qed.

Lemma StronglySorted_lt_NoDup (l : list N) : StronglySorted N.lt l → NoDup l.
Proof.
  induction 1 as [|x l Hsorted IH Hx]; constructor; [|done].
  intros Hin. rewrite Forall_forall in Hx. specialize (Hx x Hin). lia.
Qed.

Lemma elem_of_sieve (max p : N) : p ∈ sieveNat max ↔ isPrime p ∧ p < max.
Proof.
  rewrite sieve_spec, list_elem_of_fmap. split.
  - intros (m & -> & Hm). apply list_elem_of_In, List.filter_In in Hm as [Hm Hp].
    apply in_seq in Hm. apply primeb_spec in Hp.
    split; [by apply isPrime_of_nat|lia].
  - intros [Hp Hlt]. exists (N.to_nat p). split; [by rewrite N2Nat.id|].
    apply list_elem_of_In, List.filter_In. split.
    + apply in_seq. destruct Hp as [Hp2 _]. lia.
    + apply primeb_spec, isPrime_of_nat. by rewrite N2Nat.id.
Qed.

Lemma sieve_sorted (max : N) : StronglySorted N.lt (sieveNat max).
Proof.
  rewrite sieve_spec.
  apply StronglySorted_of_nat, StronglySorted_filter, StronglySorted_seq.
Qed.

(** On unbounded integers the two functions give exactly the primes of the
    range. *)
Lemma getPrimesNat_exact (from to : N) :
  (∀ p, p ∈ getPrimesNat from to ↔ isPrime p ∧ from ≤ p ∧ p < to) ∧
  StronglySorted N.lt (getPrimesNat from to) ∧
  NoDup (getPrimesNat from to) ∧
  (to < 2 → getPrimesNat from to = []).
Proof.
  assert (StronglySorted N.lt (getPrimesNat from to)) as Hsorted.
  { unfold getPrimesNat. apply StronglySorted_filter, sieve_sorted. }
  split; [|split; [done|split; [by apply StronglySorted_lt_NoDup|]]].
  - intros p. unfold getPrimesNat.
    rewrite list_elem_of_In, List.filter_In, <- list_elem_of_In.
    rewrite elem_of_sieve, bool_decide_eq_true. tauto.
  - intros Hto. unfold getPrimesNat, sieveNat. by rewrite decide_True.
Qed.

(** *** The [int] arithmetic of the sieve *)

Lemma wrapInt_small (z : Z) : (- 2 ^ 63 ≤ z < 2 ^ 63)%Z → wrapInt z = z.
Proof. intros Hz. unfold wrapInt. rewrite Z.mod_small; lia. Qed.

Lemma uint_of_int_of_nat (i : nat) :
  (Z.of_nat i < 2 ^ 63)%Z → uint_of_int (Z.of_nat i) = N.of_nat i.
Proof. intros Hi. unfold uint_of_int. rewrite Z.mod_small; lia. Qed.

Lemma length_markMultiplesNat (fuel j step : nat) (candidates : list bool) :
  length (markMultiplesNat fuel j step candidates) = length candidates.
Proof.
  revert j candidates. induction fuel as [|fuel IH]; intros j candidates; simpl; [done|].
  case_decide; [|done]. by rewrite IH, length_insert.
Qed.




(** While a slice of at most [2^62] entries is marked with a step below
    [2^62], the index stays in the range of [int]: the loop is the one on
    unbounded integers. *)
Lemma markMultiples_in_range (fuel j step : nat) (candidates : list bool) :
  (Z.of_nat (length candidates) + Z.of_nat step ≤ 2 ^ 63)%Z →
  (Z.of_nat j < 2 ^ 63)%Z →
  markMultiples fuel (Z.of_nat j) (Z.of_nat step) candidates
  = Ok (markMultiplesNat fuel j step candidates).
Proof.
  intros Hstep. revert j candidates Hstep.
  induction fuel as [|fuel IH]; intros j candidates Hstep Hj; cbn [markMultiples markMultiplesNat];
    [done|].
  destruct (decide (j < length candidates)%nat) as [Hlt|Hge].
  - rewrite decide_True by lia. rewrite decide_True by lia.
    rewrite Nat2Z.id. rewrite wrapInt_small by lia.
    rewrite <- Nat2Z.inj_add. apply IH; [by rewrite length_insert|lia].
  - by rewrite decide_False by lia.
Qed.

Lemma sieveLoop_in_range (is_ : list nat) (candidates : list bool) (primes : list N) :
  (Z.of_nat (length candidates) ≤ 2 ^ 62 - 2)%Z →
  Forall (λ i, (i < length candidates)%nat) is_ →
  sieveLoop is_ candidates primes = Ok (sieveLoopNat is_ candidates primes).
Proof.
  intros Hlen. revert candidates primes Hlen.
  induction is_ as [|i rest IH]; intros candidates primes Hlen His;
    cbn [sieveLoop sieveLoopNat]; [done|].
  apply Forall_cons in His as [Hi Hrest].
  destruct (candidates !!! i); [|by apply IH].
  cbv zeta.
  assert (wrapInt (Z.of_nat i + 2) = Z.of_nat (i + 2)) as -> by (rewrite wrapInt_small; lia).
  assert (wrapInt (wrapInt (Z.of_nat (i + 2) * 2) - 2) = Z.of_nat ((i + 2) * 2 - 2)) as ->.
  { rewrite (wrapInt_small (_ * 2)) by lia. rewrite wrapInt_small; lia. }
  rewrite markMultiples_in_range by lia. rewrite bind_Ok.
  rewrite uint_of_int_of_nat by lia.
  apply IH; rewrite length_markMultiplesNat; done.
Qed.

(** For [max] up to [2^62] the sieve returns what it computes on unbounded
    integers; from [2^63 + 2] on, its slice cannot be made. *)
Lemma sieve_in_range (max : N) : max ≤ 2 ^ 62 → sieve max = Ok (sieveNat max).
Proof.
  intros Hmax. unfold sieve, sieveNat. case_decide; [done|].
  assert ((2 : N) ^ 62 < 2 ^ 63) by reflexivity.
  rewrite decide_False by lia. cbv zeta.
  apply sieveLoop_in_range.
  - rewrite length_replicate.
    assert (Z.of_N (2 ^ 62) = 2 ^ 62)%Z by reflexivity. lia.
  - apply Forall_seq. intros i Hi. lia.
Qed.

Lemma sieve_too_large (max : N) : 2 ^ 63 + 2 ≤ max → sieve max = Panic.
Proof.
  intros Hmax. unfold sieve.
  assert ((2 : N) < 2 ^ 63 + 2) by reflexivity.
  rewrite decide_False by lia. by rewrite decide_True by lia.
Qed.

Lemma getPrimes_in_range (from to : N) :
  to ≤ 2 ^ 62 → getPrimes from to = Ok (getPrimesNat from to).
Proof. intros Hto. unfold getPrimes. by rewrite sieve_in_range. Qed.

Lemma getPrimes_too_large (from to : N) :
  2 ^ 63 + 2 ≤ to → getPrimes from to = Panic.
Proof. intros Hto. unfold getPrimes. by rewrite sieve_too_large. Qed.

(** C6, as the claim states it, fails for a bound [to] that the sieve cannot
    hold: from [2^63 + 2] on, the length [to - 2] of its slice does not fit
    [int] and [make] panics; no list of primes is returned. *)
Lemma getPrimes_panics_beyond_int :
  getPrimes 0 (2 ^ 63 + 2) = Panic
  ∧ ¬ ∃ primes, getPrimes 0 (2 ^ 63 + 2) = Ok primes.
Proof.
  assert (getPrimes 0 (2 ^ 63 + 2) = Panic) as Hpanic
    by (apply getPrimes_too_large; lia).
  split; [exact Hpanic|]. intros [primes Hprimes].
  rewrite Hpanic in Hprimes. discriminate Hprimes.
Qed.

(** C6, amended. For all [from] and all [to] up to [2^62], where the [int]
    arithmetic of the sieve stays in range, [getPrimes from to] returns
    exactly the primes [p] with [from <= p < to], in strictly ascending order
    and so without duplicates; for [to < 2] it returns the empty sequence.
    For [to] from [2^63 + 2] on it panics. *)
Theorem getPrimes_exact (from to : N) :
  (to ≤ 2 ^ 62 →
   ∃ primes,
     getPrimes from to = Ok primes ∧
     (∀ p, p ∈ primes ↔ isPrime p ∧ from ≤ p ∧ p < to) ∧
     StronglySorted N.lt primes ∧
     NoDup primes ∧
     (to < 2 → primes = [])) ∧
  (2 ^ 63 + 2 ≤ to → getPrimes from to = Panic).
Proof.
  split.
  - intros Hto. exists (getPrimesNat from to).
    split; [by apply getPrimes_in_range|]. apply getPrimesNat_exact.
  - apply getPrimes_too_large.
Qed.

Lemma getPrimes_exact_witness :
  (30 : N) ≤ 2 ^ 62 ∧
  getPrimes 10 30 = Ok [11; 13; 17; 19; 23; 29] ∧
  (∃ primes,
     getPrimes 10 30 = Ok primes ∧
     (∀ p, p ∈ primes ↔ isPrime p ∧ 10 ≤ p ∧ p < 30) ∧
     StronglySorted N.lt primes ∧
     NoDup primes ∧
     (30 < 2 → primes = [])) ∧
  (1 : N) < 2 ∧ getPrimes 0 1 = Ok [] ∧
  2 ^ 63 + 2 ≤ 2 ^ 64 - 1 ∧ getPrimes 0 (2 ^ 64 - 1) = Panic.
Proof.
  assert ((30 : N) ≤ 2 ^ 62) as Hsmall by (vm_compute; discriminate).
  assert ((2 : N) ^ 63 + 2 ≤ 2 ^ 64 - 1) as Hlarge by (vm_compute; discriminate).
  split; [exact Hsmall|]. split; [reflexivity|].
  split; [exact (proj1 (getPrimes_exact 10 30) Hsmall)|].
  split; [reflexivity|]. split; [reflexivity|].
  split; [exact Hlarge|].
  exact (proj2 (getPrimes_exact 0 (2 ^ 64 - 1)) Hlarge).
Defined.

(** * Further properties of the code *)

(** ** Digit codec, any number of digits *)

Lemma int_of_uint_small (count : N) :
  count < 2 ^ 63 → Z.to_nat (int_of_uint count) = N.to_nat count.
Proof.
  intros Hc. unfold int_of_uint.
  destruct (count <? 2 ^ 63) eqn:Hlt; [lia|]. apply N.ltb_ge in Hlt. lia.
Qed.

(** X1. For every number and every count below [2^63] (where [int(count)] is
    the count itself), [getDigits] returns exactly [count] digits, the digit
    at index [i] is the one of weight [10^i], and Horner's rule on them gives
    the number modulo [10^count]. *)
Theorem getDigits_positions (num count : N) :
  count < 2 ^ 63 →
  length (getDigits num count) = N.to_nat count ∧
  (∀ i : nat, (i < N.to_nat count)%nat →
     getDigits num count !! i = Some ((num / 10 ^ N.of_nat i) mod 10)) ∧
  horner (getDigits num count) = num mod 10 ^ count.
Proof.
  intros Hc. rewrite getDigits_digitsFrom, int_of_uint_small by done.
  split; [apply length_digitsFrom|]. split.
  - intros i Hi. by apply lookup_digitsFrom.
  - by rewrite horner_digitsFrom, N2Nat.id.
Qed.

Lemma getDigits_positions_witness :
  (3 : N) < 2 ^ 63 ∧ getDigits 1907 3 = [7; 0; 9]
  ∧ horner (getDigits 1907 3) = 1907 mod 10 ^ 3.
Proof.
  split; [reflexivity|]. split; [reflexivity|].
  apply (getDigits_positions 1907 3). reflexivity.
Defined.

(** X2. A number with fewer significant digits than asked for is padded
    with zeros in the higher positions. *)
Theorem getDigits_zero_padded (num count : N) (k i : nat) :
  count < 2 ^ 63 →
  num < 10 ^ N.of_nat k →
  (k ≤ i)%nat → (i < N.to_nat count)%nat →
  getDigits num count !! i = Some 0.
Proof.
  intros Hc Hnum Hki Hi.
  rewrite getDigits_digitsFrom, int_of_uint_small by done.
  rewrite lookup_digitsFrom by done. f_equal.
  rewrite N.div_small; [done|].
  eapply N.lt_le_trans; [exact Hnum|].
  apply N.pow_le_mono_r; lia.
Qed.

Lemma getDigits_zero_padded_witness :
  (5 : N) < 2 ^ 63 ∧ (421 : N) < 10 ^ N.of_nat 3 ∧ (3 ≤ 4)%nat
  ∧ (4 < N.to_nat 5)%nat ∧ getDigits 421 5 !! 4%nat = Some 0.
Proof.
  split; [reflexivity|]. split; [reflexivity|]. split; [lia|]. split; [simpl; lia|].
  apply (getDigits_zero_padded 421 5 3 4); [reflexivity|reflexivity|lia|simpl; lia].
Defined.

(** ** Feedback evaluator: lengths, entries, the all-Correct report *)

(** X3. [getFeedbackPerDigit] panics exactly when the two sequences differ in
    length; otherwise it returns a report of that length. *)
Theorem getFeedbackPerDigit_panic_iff (guessDigits possibleSolutionDigits : list N) :
  (getFeedbackPerDigit guessDigits possibleSolutionDigits = Panic
   ↔ length guessDigits ≠ length possibleSolutionDigits) ∧
  (length guessDigits = length possibleSolutionDigits →
   ∃ report, getFeedbackPerDigit guessDigits possibleSolutionDigits = Ok report
             ∧ length report = length guessDigits).
Proof.
  split.
  - destruct (decide (length guessDigits = length possibleSolutionDigits)) as [He|Hne].
    + rewrite getFeedbackPerDigit_spec by done. split; [done|]. by intros [].
    + unfold getFeedbackPerDigit. by rewrite decide_True.
  - intros He. destruct (getFeedbackPerDigit_kinds _ _ He) as (report & Hr & Hlen & _).
    by exists report.
Qed.

Lemma getFeedbackPerDigit_panic_iff_witness :
  length [1; 2] = length [3; 2] ∧
  (∃ report, getFeedbackPerDigit [1; 2] [3; 2] = Ok report
             ∧ length report = length [1; 2]) ∧
  getFeedbackPerDigit [1; 2] [3] = Panic.
Proof.
  split; [reflexivity|]. split.
  - apply (getFeedbackPerDigit_panic_iff [1; 2] [3; 2]). reflexivity.
  - apply (getFeedbackPerDigit_panic_iff [1; 2] [3]). simpl. lia.
Defined.

(** X4. On sequences of equal length, every entry of the report has the kind
    of the two-pass rule. Its digit is the digit of the guess at its
    position, except for an Absent entry when the last position is a Correct
    one: that entry has the digit 0. *)
Theorem getFeedbackPerDigit_entries (guessDigits possibleSolutionDigits : list N) :
  length guessDigits = length possibleSolutionDigits →
  ∃ report,
    getFeedbackPerDigit guessDigits possibleSolutionDigits = Ok report ∧
    ∀ i, (i < length guessDigits)%nat →
      ∃ f, report !! i = Some f ∧
           fbType f = expectedKind guessDigits possibleSolutionDigits i ∧
           digit f
           = if decide (expectedKind guessDigits possibleSolutionDigits i
                        = feedbackTypeAbsent
                        ∧ agree guessDigits possibleSolutionDigits
                            (length possibleSolutionDigits - 1))
             then 0 else guessDigits !!! i.
Proof.
  intros He. eexists. split; [by apply getFeedbackPerDigit_spec|].
  intros i Hi. exists (codeFeedback guessDigits possibleSolutionDigits i).
  split.
  { rewrite list_lookup_fmap, lookup_seq_lt by lia. done. }
  unfold codeFeedback. case_decide as Hc.
  - destruct Hc as [Hk Hlast]. simpl. done.
  - done.
Qed.

Lemma getFeedbackPerDigit_entries_witness :
  length [1; 2; 7] = length [3; 1; 7] ∧
  getFeedbackPerDigit [1; 2; 7] [3; 1; 7]
  = Ok [mkFeedback 1 feedbackTypePresent; mkFeedback 0 feedbackTypeAbsent;
        mkFeedback 7 feedbackTypeCorrect] ∧
  ∃ report,
    getFeedbackPerDigit [1; 2; 7] [3; 1; 7] = Ok report ∧
    ∀ i, (i < length [1; 2; 7])%nat →
      ∃ f, report !! i = Some f ∧
           fbType f = expectedKind [1; 2; 7] [3; 1; 7] i ∧
           digit f
           = if decide (expectedKind [1; 2; 7] [3; 1; 7] i = feedbackTypeAbsent
                        ∧ agree [1; 2; 7] [3; 1; 7] (length [3; 1; 7] - 1))
             then 0%N else [1; 2; 7] !!! i.
Proof.
  split; [reflexivity|]. split; [reflexivity|].
  apply (getFeedbackPerDigit_entries [1; 2; 7] [3; 1; 7]). reflexivity.
Defined.

Lemma all_Forall (slice : list feedback) (predicate : feedback → bool) :
  all slice predicate = true ↔ Forall (λ f, predicate f = true) slice.
Proof.
  induction slice as [|f rest IH]; simpl.
  - split; [constructor|done].
  - rewrite Forall_cons. destruct (predicate f); [by rewrite IH; intuition|].
    split; [done|]. by intros [? _].
Qed.

(** X5. The report of a guess against a solution of the same length is
    all-Correct, as [main] tests it with [all], exactly when the two
    sequences are equal; in particular a guess against itself is. *)
Theorem getFeedbackPerDigit_all_Correct (guessDigits possibleSolutionDigits : list N) :
  length guessDigits = length possibleSolutionDigits →
  ∃ report,
    getFeedbackPerDigit guessDigits possibleSolutionDigits = Ok report ∧
    (all report (λ f, bool_decide (fbType f = feedbackTypeCorrect)) = true
     ↔ guessDigits = possibleSolutionDigits).
Proof.
  intros He. destruct (getFeedbackPerDigit_kinds _ _ He) as (report & Hr & Hlen & Hkinds).
  exists report. split; [done|].
  rewrite all_Forall, Forall_lookup. split.
  - intros Hall. apply list_eq. intros i.
    destruct (decide (i < length guessDigits)%nat) as [Hi|Hi].
    + rewrite (list_lookup_lookup_total_lt guessDigits i Hi).
      rewrite (list_lookup_lookup_total_lt possibleSolutionDigits i) by lia.
      f_equal. apply expectedKind_Correct. rewrite <- Hkinds by done.
      assert (report !! i = Some (report !!! i)) as Hri
        by (apply list_lookup_lookup_total_lt; lia).
      specialize (Hall i _ Hri). by apply bool_decide_eq_true in Hall.
    + rewrite !lookup_ge_None_2 by lia. done.
  - intros <- i f Hi. apply bool_decide_eq_true.
    pose proof (lookup_lt_Some _ _ _ Hi) as Hlt. rewrite Hlen in Hlt.
    rewrite <- (list_lookup_total_correct _ _ _ Hi), Hkinds by done.
    by apply expectedKind_Correct.
Qed.

Lemma getFeedbackPerDigit_all_Correct_witness :
  length (getDigits 10007 5) = length (getDigits 10007 5) ∧
  ∃ report,
    getFeedbackPerDigit (getDigits 10007 5) (getDigits 10007 5) = Ok report ∧
    (all report (λ f, bool_decide (fbType f = feedbackTypeCorrect)) = true
     ↔ getDigits 10007 5 = getDigits 10007 5).
Proof.
  split; [reflexivity|].
  apply (getFeedbackPerDigit_all_Correct (getDigits 10007 5) (getDigits 10007 5)).
  reflexivity.
Defined.

(** ** Slice helpers *)

(** X6. [contains] tells whether the element occurs in the slice. *)
Theorem contains_iff_elem_of (slice : list N) (elem : N) :
  contains slice elem = true ↔ elem ∈ slice.
Proof. apply contains_elem_of. Qed.

Lemma filter_panic (before after : list N) (x : N) (predicate : N → outcome bool) :
  (∀ y, y ∈ before → ∃ keep, predicate y = Ok keep) →
  predicate x = Panic →
  filter (before ++ x :: after) predicate = Panic.
Proof.
  intros Hbefore Hx. induction before as [|y before IH]; simpl.
  - by rewrite Hx.
  - destruct (Hbefore y (list_elem_of_here _ _)) as [keep ->]. rewrite bind_Ok.
    rewrite IH; [done|]. intros z Hz. apply Hbefore. by apply list_elem_of_further.
Qed.

(** X7. [filter] with a predicate that returns on every element of the slice
    gives the elements the predicate accepts, in their order; a predicate
    that panics on an element, after returning on those before it, makes
    [filter] panic. *)
Theorem filter_outcome (slice : list N) (predicate : N → outcome bool) :
  (∀ p : N → bool, (∀ x, x ∈ slice → predicate x = Ok (p x)) →
     filter slice predicate = Ok (List.filter p slice)) ∧
  (∀ before x after, slice = before ++ x :: after →
     (∀ y, y ∈ before → ∃ keep, predicate y = Ok keep) →
     predicate x = Panic →
     filter slice predicate = Panic).
Proof.
  split.
  - intros p Hp. by apply filter_pure.
  - intros before x after -> Hbefore Hx. by apply filter_panic.
Qed.

Lemma filter_outcome_witness :
  filter [12; 7; 30] (λ x, Ok (bool_decide (x < 20)))
  = Ok (List.filter (λ x, bool_decide (x < 20)) [12; 7; 30]) ∧
  filter [12; 7; 30] (λ x, if decide (x = 7) then Panic else Ok true) = Panic.
Proof.
  split.
  - apply (proj1 (filter_outcome [12; 7; 30] (λ x, Ok (bool_decide (x < 20))))
             (λ x, bool_decide (x < 20))).
    intros x _. reflexivity.
  - apply (proj2 (filter_outcome [12; 7; 30]
                    (λ x, if decide (x = 7) then Panic else Ok true))
             [12] 7 [30]); [reflexivity| |reflexivity].
    intros y ->%list_elem_of_singleton. by exists true.
Defined.

(** ** Candidate filter: failures, order of rounds, the guess itself *)

Lemma switchStep_Ok (feedbackPerDigit : list feedback) (correctPositions candidates : list N)
    (i : nat) :
  validKind (feedbackPerDigit !!! i) →
  ∃ newCandidates,
    switchStep feedbackPerDigit correctPositions candidates i = Ok newCandidates.
Proof.
  intros Hvalid. unfold switchStep. cbv zeta.
  destruct (decide (fbType (feedbackPerDigit !!! i) = feedbackTypeCorrect)); [by eexists|].
  destruct (decide (fbType (feedbackPerDigit !!! i) = feedbackTypePresent)).
  { eexists. by apply filter_pure. }
  rewrite decide_True by (destruct Hvalid as [?|[?|?]]; done).
  eexists. by apply filter_pure.
Qed.

Lemma switchStep_Exit (feedbackPerDigit : list feedback) (correctPositions candidates : list N)
    (i : nat) :
  ¬ validKind (feedbackPerDigit !!! i) →
  switchStep feedbackPerDigit correctPositions candidates i = Exit 2.
Proof.
  intros Hinvalid. unfold switchStep, validKind in *. cbv zeta.
  rewrite !decide_False by tauto. done.
Qed.

Lemma validKind_or_not (f : feedback) : validKind f ∨ ¬ validKind f.
Proof.
  unfold validKind.
  destruct (decide (fbType f = feedbackTypeCorrect)); [tauto|].
  destruct (decide (fbType f = feedbackTypePresent)); [tauto|].
  destruct (decide (fbType f = feedbackTypeAbsent)); tauto.
Qed.

Lemma switchLoop_Exit (feedbackPerDigit : list feedback) (correctPositions : list N)
    (is_ : list nat) (candidates : list N) (i : nat) :
  i ∈ is_ → ¬ validKind (feedbackPerDigit !!! i) →
  forRange is_ (switchStep feedbackPerDigit correctPositions) candidates = Exit 2.
Proof.
  intros Hi Hinvalid. revert candidates.
  induction Hi as [i rest|i j rest Hin IH]; intros candidates; cbn [forRange].
  - by rewrite switchStep_Exit.
  - destruct (validKind_or_not (feedbackPerDigit !!! j)) as [Hj|Hj].
    + destruct (switchStep_Ok feedbackPerDigit correctPositions candidates j Hj)
        as [newCandidates ->].
      rewrite bind_Ok. by apply IH.
    + by rewrite switchStep_Exit.
Qed.

(** X8. A report (over at most 5 positions) with an entry whose kind is none
    of Absent, Present, Correct ends the program with exit code 2, whatever
    the candidates are. *)
Theorem incorporateFeedback_invalid_kind (feedbackPerDigit : list feedback)
    (candidates : list N) (i : nat) (f : feedback) :
  (length feedbackPerDigit ≤ 5)%nat →
  feedbackPerDigit !! i = Some f →
  ¬ validKind f →
  incorporateFeedback feedbackPerDigit candidates = Exit 2.
Proof.
  intros Hlen Hi Hinvalid. unfold incorporateFeedback. cbv zeta.
  rewrite correctLoop_spec by (apply Forall_seq; intros; lia).
  rewrite bind_Ok. cbn [app].
  pose proof (lookup_lt_Some _ _ _ Hi) as Hlt.
  apply (switchLoop_Exit _ _ _ _ i); [apply elem_of_seq; lia|].
  by rewrite (list_lookup_total_correct _ _ _ Hi).
Qed.

Lemma incorporateFeedback_invalid_kind_witness :
  (length [mkFeedback 7%N feedbackTypeCorrect; mkFeedback 1%N 3%N] ≤ 5)%nat ∧
  ¬ validKind (mkFeedback 1 3) ∧
  incorporateFeedback [mkFeedback 7 feedbackTypeCorrect; mkFeedback 1 3] [10007; 10009]
  = Exit 2.
Proof.
  assert (¬ validKind (mkFeedback 1 3)) as Hinvalid.
  { unfold validKind. simpl. intros [H|[H|H]]; discriminate H. }
  split; [simpl; lia|]. split; [exact Hinvalid|].
  apply (incorporateFeedback_invalid_kind
           [mkFeedback 7 feedbackTypeCorrect; mkFeedback 1 3] [10007; 10009]
           1 (mkFeedback 1 3)); [simpl; lia|reflexivity|exact Hinvalid].
Defined.

Lemma correctLoop_Panic (feedbackPerDigit : list feedback) (before after : list nat)
    (i : nat) (candidates correctPositions : list N) :
  Forall (λ j, fbType (feedbackPerDigit !!! j) ≠ feedbackTypeCorrect) before →
  fbType (feedbackPerDigit !!! i) = feedbackTypeCorrect →
  (5 ≤ i)%nat →
  candidates ≠ [] →
  forRange (before ++ i :: after) (correctStep feedbackPerDigit)
           (candidates, correctPositions) = Panic.
Proof.
  intros Hbefore Hi Hrange Hne.
  induction Hbefore as [|j before Hj Hbefore IH]; cbn [app forRange].
  - assert (correctStep feedbackPerDigit (candidates, correctPositions) i = Panic) as ->;
      [|done].
    unfold correctStep. rewrite decide_True by done.
    destruct candidates as [|c rest]; [done|]. cbn [filter].
    unfold correctPredicate.
    rewrite index_ge by (rewrite length_getDigits_5; lia). done.
  - assert (correctStep feedbackPerDigit (candidates, correctPositions) j
            = Ok (candidates, correctPositions)) as ->.
    { unfold correctStep. by rewrite decide_False. }
    rewrite bind_Ok. apply IH.
Qed.

(** X9. A report whose first Correct entry stands at a position from 5 on
    makes the filter panic on any non-empty candidate list: the test of that
    entry indexes the 5 digits of a candidate out of range. *)
Theorem incorporateFeedback_out_of_range (feedbackPerDigit : list feedback)
    (candidates : list N) (i : nat) (f : feedback) :
  feedbackPerDigit !! i = Some f →
  fbType f = feedbackTypeCorrect →
  (5 ≤ i)%nat →
  (∀ j, (j < i)%nat → ¬ correctAt feedbackPerDigit j) →
  candidates ≠ [] →
  incorporateFeedback feedbackPerDigit candidates = Panic.
Proof.
  intros Hi Hc Hrange Hfirst Hne. unfold incorporateFeedback. cbv zeta.
  pose proof (lookup_lt_Some _ _ _ Hi) as Hlt.
  replace (seq 0 (length feedbackPerDigit))
    with (seq 0 i ++ i :: seq (S i) (length feedbackPerDigit - S i)).
  2:{ change (i :: seq (S i) (length feedbackPerDigit - S i))
        with (seq i (S (length feedbackPerDigit - S i))).
      rewrite <- seq_app. f_equal. lia. }
  rewrite correctLoop_Panic; [done| | |done|done].
  - apply Forall_seq. intros j Hj Hcj. apply (Hfirst j); [lia|].
    apply correctAt_lookup_total. split; [lia|done].
  - by rewrite (list_lookup_total_correct _ _ _ Hi).
Qed.

Lemma incorporateFeedback_out_of_range_witness :
  incorporateFeedback
    (replicate 5 (mkFeedback 0 feedbackTypeAbsent) ++ [mkFeedback 1 feedbackTypeCorrect])
    [12345] = Panic.
Proof.
  apply (incorporateFeedback_out_of_range _ [12345] 5 (mkFeedback 1 feedbackTypeCorrect));
    [reflexivity|reflexivity|lia| |discriminate].
  intros j Hj [f [Hf Hc]].
  do 5 (destruct j as [|j]; [injection Hf as <-; discriminate Hc|]). lia.
Defined.

(** X10. The order of two rounds does not matter: filtering by one
    well-formed report and then by another gives the same list as filtering
    in the other order. *)
Theorem incorporateFeedback_commute (first second : list feedback) (candidates : list N) :
  Forall validKind first → (length first ≤ 5)%nat →
  Forall validKind second → (length second ≤ 5)%nat →
  ∃ newCandidates,
    (incorporateFeedback first candidates ≫= incorporateFeedback second)
    = Ok newCandidates ∧
    (incorporateFeedback second candidates ≫= incorporateFeedback first)
    = Ok newCandidates.
Proof.
  intros Hv1 Hl1 Hv2 Hl2. eexists. split.
  - rewrite (incorporateFeedback_filter first) by done. rewrite bind_Ok.
    by rewrite (incorporateFeedback_filter second), filter_filter_andb by done.
  - rewrite (incorporateFeedback_filter second) by done. rewrite bind_Ok.
    rewrite (incorporateFeedback_filter first), filter_filter_andb by done.
    f_equal. apply filter_ext_bool. intros c. apply andb_comm.
Qed.

Lemma incorporateFeedback_commute_witness :
  Forall validKind sampleReport ∧ (length sampleReport ≤ 5)%nat ∧
  ∃ newCandidates,
    (incorporateFeedback sampleReport sampleCandidates
       ≫= incorporateFeedback (codeReport 47127 41124))
    = Ok newCandidates ∧
    (incorporateFeedback (codeReport 47127 41124) sampleCandidates
       ≫= incorporateFeedback sampleReport)
    = Ok newCandidates.
Proof.
  split; [exact sampleReport_valid|]. split; [exact sampleReport_length|].
  apply (incorporateFeedback_commute sampleReport (codeReport 47127 41124)
           sampleCandidates sampleReport_valid sampleReport_length
           (codeReport_valid 47127 41124)).
  simpl. lia.
Defined.

(** X11. A guess is filtered out by any report on its own digits that marks
    one of them Absent: the candidates left after such a round never contain
    the guess again. *)
Theorem incorporateFeedback_drops_guess (feedbackPerDigit : list feedback)
    (candidates : list N) (guess : N) (i : nat) (f : feedback) :
  Forall validKind feedbackPerDigit →
  (length feedbackPerDigit ≤ 5)%nat →
  feedbackPerDigit !! i = Some f →
  fbType f = feedbackTypeAbsent →
  digit f = getDigits guess 5 !!! i →
  ∃ newCandidates,
    incorporateFeedback feedbackPerDigit candidates = Ok newCandidates ∧
    guess ∉ newCandidates.
Proof.
  intros Hvalid Hlen Hi Habsent Hdigit. eexists.
  split; [by apply incorporateFeedback_filter|].
  intros [_ Hkeep]%list_elem_of_In%List.filter_In.
  apply consistentb_spec in Hkeep; [|done].
  destruct (Hkeep i f Hi) as (_ & _ & Hno). specialize (Hno Habsent i).
  pose proof (lookup_lt_Some _ _ _ Hi) as Hlt.
  destruct Hno as (f' & Hf' & Hc).
  - rewrite Hdigit. apply list_lookup_lookup_total_lt.
    rewrite length_getDigits_5. lia.
  - rewrite Hi in Hf'. injection Hf' as <-. rewrite Hc in Habsent. discriminate.
Qed.

Lemma incorporateFeedback_drops_guess_witness :
  Forall validKind sampleReport ∧ (length sampleReport ≤ 5)%nat ∧
  ∃ newCandidates,
    incorporateFeedback sampleReport [65321; 41124] = Ok newCandidates ∧
    65321 ∉ newCandidates.
Proof.
  split; [exact sampleReport_valid|]. split; [exact sampleReport_length|].
  apply (incorporateFeedback_drops_guess sampleReport [65321; 41124] 65321 2
           (mkFeedback 3 feedbackTypeAbsent) sampleReport_valid sampleReport_length);
    reflexivity.
Defined.

Lemma consistent_same_digits (feedbackPerDigit : list feedback) (c c' : N) :
  getDigits c 5 = getDigits c' 5 →
  consistent feedbackPerDigit c → consistent feedbackPerDigit c'.
Proof. unfold consistent. by intros ->. Qed.

(** X12. Filtering by the report of a guess against itself keeps exactly the
    candidates that have the 5 digits of the guess: among numbers below
    100000, the guess alone. *)
Theorem incorporateFeedback_own_report (guess : N) (candidates : list N) :
  ∃ newCandidates,
    (getFeedbackPerDigit (getDigits guess 5) (getDigits guess 5)
       ≫= λ feedbackPerDigit, incorporateFeedback feedbackPerDigit candidates)
    = Ok newCandidates ∧
    (∀ c, c ∈ newCandidates ↔ c ∈ candidates ∧ getDigits c 5 = getDigits guess 5) ∧
    (∀ c, c ∈ newCandidates → c < 100000 → guess < 100000 → c = guess).
Proof.
  assert (∀ c, consistentb (codeReport guess guess) c = true
               ↔ getDigits c 5 = getDigits guess 5) as Hkeep.
  { intros c. rewrite consistentb_spec by apply codeReport_valid.
    rewrite codeReport_expected by (by right). split.
    - intros Hc. apply list_eq. intros i.
      destruct (decide (i < 5)%nat) as [Hi|Hi].
      + destruct (Hc i (expectedFeedback (getDigits guess 5) (getDigits guess 5) i))
          as (Hcorrect & _).
        { unfold expectedReport. by rewrite list_lookup_fmap, lookup_seq_lt. }
        rewrite Hcorrect by (by apply expectedKind_Correct). simpl.
        symmetry. apply list_lookup_lookup_total_lt. rewrite length_getDigits_5. lia.
      + rewrite !lookup_ge_None_2 by (rewrite length_getDigits_5; lia). done.
    - intros Heq. apply (consistent_same_digits _ guess c); [done|].
      apply expectedReport_consistent. }
  eexists. split; [|split].
  - rewrite getFeedbackPerDigit_codeReport, bind_Ok.
    apply incorporateFeedback_filter; [apply codeReport_valid|].
    by rewrite length_codeReport.
  - intros c. rewrite list_elem_of_In, List.filter_In, <- list_elem_of_In, Hkeep. done.
  - intros c [_ Hc]%list_elem_of_In%List.filter_In Hsmall Hgsmall.
    apply Hkeep in Hc.
    rewrite <- (N.mod_small c 100000), <- (N.mod_small guess 100000) by done.
    change 100000 with (10 ^ N.of_nat 5).
    by rewrite <- !horner_digitsFrom, <- !getDigits_5, Hc.
Qed.

Lemma incorporateFeedback_own_report_witness :
  ∃ newCandidates,
    (getFeedbackPerDigit (getDigits 10007 5) (getDigits 10007 5)
       ≫= λ feedbackPerDigit, incorporateFeedback feedbackPerDigit [10009; 10007; 110007])
    = Ok newCandidates ∧
    10007 ∈ newCandidates ∧ 110007 ∈ newCandidates ∧ 10009 ∉ newCandidates.
Proof.
  destruct (incorporateFeedback_own_report 10007 [10009; 10007; 110007])
    as (newCandidates & Hrun & Hiff & _).
  exists newCandidates. split; [exact Hrun|]. split; [|split].
  - apply Hiff. split; [|reflexivity]. apply list_elem_of_further, list_elem_of_here.
  - apply Hiff. split; [|reflexivity].
    do 2 apply list_elem_of_further. apply list_elem_of_here.
  - intros [_ Hdigits]%Hiff. discriminate Hdigits.
Defined.

(** ** Frequency heuristic: the maps, bounds of the score *)

Lemma lookupAt_increment (result : list (gmap N N)) (j : nat) (d : N) (j' : nat) (d' : N) :
  (j < length result)%nat →
  lookupAt (Frequency.increment result j d) j' d'
  = if decide (j' = j ∧ d' = d)
    then Some (wrap64 (default 0 (lookupAt result j d) + 1))
    else lookupAt result j' d'.
Proof.
  intros Hj. unfold lookupAt, Frequency.increment. cbv zeta.
  destruct (decide (j' = j)) as [->|Hne].
  - rewrite list_lookup_total_insert_eq by done.
    destruct (decide (d' = d)) as [->|Hd].
    + rewrite lookup_insert_eq. by rewrite decide_True.
    + rewrite lookup_insert_ne by done. rewrite decide_False; [done|]. by intros [_ ?].
  - rewrite list_lookup_total_insert_ne by done.
    rewrite decide_False; [done|]. by intros [? _].
Qed.

(** The inner loop for one number, on the maps as they are. *)
Lemma countDigits_lookupAt (digits : list N) (result : list (gmap N N)) (k : nat) :
  (k ≤ length result)%nat →
  let result' := foldl (λ result j, Frequency.increment result j (digits !!! j))
                       result (seq 0 k) in
  ∀ j d, lookupAt result' j d
         = if decide ((j < k)%nat ∧ d = digits !!! j)
           then Some (wrap64 (default 0 (lookupAt result j d) + 1))
           else lookupAt result j d.
Proof.
  cbv zeta. induction k as [|k IH]; intros Hk j d.
  - rewrite decide_False; [done|]. intros [? _]. lia.
  - rewrite foldl_seq_S.
    destruct (countDigits_spec digits result k) as [Hlen _]; [lia|].
    rewrite lookupAt_increment by lia. rewrite !IH by lia. clear IH.
    destruct (decide (j = k)) as [->|Hne].
    + rewrite (decide_False (P := (k < k)%nat ∧ _)) by lia.
      destruct (decide (d = digits !!! k)) as [->|Hd].
      * rewrite (decide_True (P := k = k ∧ _)) by done.
        rewrite decide_True; [done|]. split; [lia|done].
      * rewrite (decide_False (P := k = k ∧ _)) by (by intros [_ ?]).
        rewrite decide_False by lia.
        rewrite decide_False; [done|]. by intros [_ ?].
    + rewrite (decide_False (P := j = k ∧ _)) by (by intros [? _]).
      destruct (decide ((j < k)%nat ∧ d = digits !!! j)) as [[Hj Hd]|Hn].
      * rewrite decide_True; [done|]. split; [lia|done].
      * rewrite decide_False; [done|].
        intros [Hj Hd]. apply Hn. split; [lia|done].
Qed.

(** The maps hold exactly the positive counts. *)
Lemma lookupAt_foldl (rest processed : list N) (result : list (gmap N N)) :
  N.of_nat (length (processed ++ rest)) < 2 ^ 64 →
  length result = 5%nat →
  (∀ j d, (j < 5)%nat →
     lookupAt result j d = if decide (digitCount processed j d = 0) then None
                           else Some (digitCount processed j d)) →
  ∀ j d, (j < 5)%nat →
    lookupAt (foldl (λ result num,
                let digits := getDigits num 5 in
                foldl (λ result j, Frequency.increment result j (digits !!! j))
                      result (seq 0 (length digits)))
              result rest) j d
    = if decide (digitCount (processed ++ rest) j d = 0) then None
      else Some (digitCount (processed ++ rest) j d).
Proof.
  revert processed result.
  induction rest as [|num rest IH]; intros processed result Hfit Hlen Hinv j d Hj.
  - rewrite app_nil_r. by apply Hinv.
  - cbn [foldl]. cbv zeta.
    replace (processed ++ num :: rest) with ((processed ++ [num]) ++ rest) in *
      by (by rewrite <- app_assoc).
    rewrite length_getDigits_5.
    destruct (countDigits_spec (getDigits num 5) result 5) as [Hlen' _]; [lia|].
    apply IH; [done|by rewrite Hlen'| |done].
    clear j d Hj. intros j d Hj.
    rewrite countDigits_lookupAt by lia. rewrite (Hinv j d Hj).
    rewrite digitCount_snoc.
    assert (getDigits num 5 !! j = Some (getDigits num 5 !!! j)) as Hdj.
    { apply list_lookup_lookup_total_lt. rewrite length_getDigits_5. lia. }
    pose proof (digitCount_le processed j d).
    rewrite !length_app in Hfit. simpl in Hfit.
    destruct (decide (d = getDigits num 5 !!! j)) as [Hd|Hd].
    + rewrite (decide_True (P := (j < 5)%nat ∧ _)) by done.
      rewrite (decide_True (P := getDigits num 5 !! j = Some d)) by congruence.
      rewrite (decide_False (P := _ + 1 = 0)) by lia.
      f_equal. case_decide as Hz.
      * rewrite Hz. simpl. apply wrap64_small. lia.
      * simpl. apply wrap64_small. lia.
    + rewrite (decide_False (P := (j < 5)%nat ∧ _)) by (by intros [_ ?]).
      rewrite (decide_False (P := getDigits num 5 !! j = Some d)) by congruence.
      by rewrite N.add_0_r.
Qed.

(** X13. [findDigitFrequencyPerPosition] over 5 digits returns 5 maps; the
    map of position [j] has a key for digit [d] exactly when some number has
    [d] at position [j], and its value is the number of these numbers. *)
Theorem findDigitFrequencyPerPosition_lookup (numbers : list N) :
  N.of_nat (length numbers) < 2 ^ 64 →
  length (Frequency.findDigitFrequencyPerPosition numbers 5) = 5%nat ∧
  ∀ (j : nat) (d : N), (j < 5)%nat →
    (Frequency.findDigitFrequencyPerPosition numbers 5 !!! j) !! d
    = if decide (digitCount numbers j d = 0) then None
      else Some (digitCount numbers j d).
Proof.
  intros Hfit. split; [apply length_findDigitFrequencyPerPosition|].
  intros j d Hj. unfold Frequency.findDigitFrequencyPerPosition. cbv zeta.
  apply (lookupAt_foldl numbers [] _ Hfit); [done| |done].
  clear j d Hj. intros j d Hj. unfold lookupAt.
  rewrite lookup_total_replicate_2 by (simpl; lia). by rewrite lookup_empty.
Qed.

Lemma findDigitFrequencyPerPosition_lookup_witness :
  N.of_nat (length samplePrimes) < 2 ^ 64 ∧
  (Frequency.findDigitFrequencyPerPosition samplePrimes 5 !!! 0%nat) !! 7
  = (if decide (digitCount samplePrimes 0 7 = 0) then None
     else Some (digitCount samplePrimes 0 7)) ∧
  digitCount samplePrimes 0 7 = 2 ∧ digitCount samplePrimes 0 5 = 0.
Proof.
  split; [reflexivity|]. split; [|split; reflexivity].
  apply (findDigitFrequencyPerPosition_lookup samplePrimes); [reflexivity|lia].
Defined.

Lemma forRange_app {S A : Type} (xs ys : list A) (body : S → A → outcome S) (s : S) :
  forRange (xs ++ ys) body s = forRange xs body s ≫= forRange ys body.
Proof.
  revert s. induction xs as [|x xs IH]; intros s; cbn [app forRange]; [done|].
  destruct (body s x) as [s'| |code]; [|done|done]. rewrite !bind_Ok. apply IH.
Qed.

(** X14. [evaluateGuess] of the frequency heuristic reads the maps of the
    positions 0 to 4: it returns a score on a slice of at least 5 maps and
    panics, index out of range, on a shorter one. *)
Theorem frequency_evaluateGuess_bounds (guess : N)
    (digitFrequencyPerPosition : list (gmap N N)) :
  ((5 ≤ length digitFrequencyPerPosition)%nat →
   ∃ score, Frequency.evaluateGuess guess digitFrequencyPerPosition = Ok score) ∧
  ((length digitFrequencyPerPosition < 5)%nat →
   Frequency.evaluateGuess guess digitFrequencyPerPosition = Panic).
Proof.
  unfold Frequency.evaluateGuess. cbv zeta. rewrite length_getDigits_5. split.
  - intros Hlen. eexists.
    apply (forRange_pure _
      (λ acc i, wrap64 (acc + default 0 ((digitFrequencyPerPosition !!! i)
                                           !! (getDigits guess 5 !!! i))))).
    intros acc i Hi%elem_of_seq. by rewrite index_lt by lia.
  - intros Hlen. set (k := length digitFrequencyPerPosition).
    replace (seq 0 5) with (seq 0 k ++ k :: seq (S k) (5 - S k)).
    2:{ change (k :: seq (S k) (5 - S k)) with (seq k (S (5 - S k))).
        rewrite <- seq_app. f_equal. lia. }
    rewrite forRange_app.
    rewrite (forRange_pure _
      (λ acc i, wrap64 (acc + default 0 ((digitFrequencyPerPosition !!! i)
                                           !! (getDigits guess 5 !!! i))))).
    + rewrite bind_Ok. cbn [forRange]. by rewrite index_ge.
    + intros acc i Hi%elem_of_seq. by rewrite index_lt by lia.
Qed.

Lemma frequency_evaluateGuess_bounds_witness :
  (5 ≤ length (Frequency.findDigitFrequencyPerPosition samplePrimes 5))%nat ∧
  (∃ score, Frequency.evaluateGuess 10007
              (Frequency.findDigitFrequencyPerPosition samplePrimes 5) = Ok score) ∧
  (length (Frequency.findDigitFrequencyPerPosition samplePrimes 4) < 5)%nat ∧
  Frequency.evaluateGuess 10007 (Frequency.findDigitFrequencyPerPosition samplePrimes 4)
  = Panic.
Proof.
  assert (5 ≤ length (Frequency.findDigitFrequencyPerPosition samplePrimes 5))%nat
    as Hlong by (rewrite length_findDigitFrequencyPerPosition; lia).
  assert (length (Frequency.findDigitFrequencyPerPosition samplePrimes 4) < 5)%nat
    as Hshort by (vm_compute; lia).
  split; [exact Hlong|]. split; [|split; [exact Hshort|]].
  - exact (proj1 (frequency_evaluateGuess_bounds 10007 _) Hlong).
  - exact (proj2 (frequency_evaluateGuess_bounds 10007 _) Hshort).
Defined.

Lemma digitCount_self (candidates : list N) (g : N) (i : nat) :
  g ∈ candidates → (i < 5)%nat →
  1 ≤ digitCount candidates i (getDigits g 5 !!! i).
Proof.
  intros Hg Hi. unfold digitCount.
  assert (g ∈ List.filter
            (λ c, bool_decide (getDigits c 5 !! i = Some (getDigits g 5 !!! i)))
            candidates) as Hin.
  { apply list_elem_of_In, List.filter_In. split; [by apply list_elem_of_In|].
    apply bool_decide_eq_true, list_lookup_lookup_total_lt.
    rewrite length_getDigits_5. lia. }
  destruct (List.filter _ _); [by apply elem_of_nil in Hin|]. simpl. lia.
Qed.

Lemma frequencyScore_member (candidates : list N) (g : N) :
  g ∈ candidates →
  5 ≤ frequencyScore candidates g ∧
  frequencyScore candidates g ≤ 5 * N.of_nat (length candidates).
Proof.
  intros Hg. split; [|apply frequencyScore_bound].
  unfold frequencyScore. cbn [seq]. rewrite !sumOver_cons.
  pose proof (digitCount_self candidates g 0 Hg ltac:(lia)).
  pose proof (digitCount_self candidates g 1 Hg ltac:(lia)).
  pose proof (digitCount_self candidates g 2 Hg ltac:(lia)).
  pose proof (digitCount_self candidates g 3 Hg ltac:(lia)).
  pose proof (digitCount_self candidates g 4 Hg ltac:(lia)).
  change (sumOver _ []) with 0. lia.
Qed.

(** X15. The score that [evaluateGuess] gives to a candidate, from the maps
    that [findDigitFrequencyPerPosition] builds from the candidates, lies
    between 5 (the candidate counts itself at each of the 5 positions) and 5
    times the number of candidates. *)
Theorem frequencyScore_member_bounds (candidates : list N) (g : N) :
  g ∈ candidates →
  5 * N.of_nat (length candidates) < 2 ^ 64 →
  ∃ score,
    Frequency.evaluateGuess g (Frequency.findDigitFrequencyPerPosition candidates 5)
    = Ok score ∧
    5 ≤ score ∧ score ≤ 5 * N.of_nat (length candidates).
Proof.
  intros Hg Hfit. exists (frequencyScore candidates g). split.
  - apply frequency_evaluateGuess_score; [done|].
    apply findDigitFrequencyPerPosition_spec. lia.
  - by apply frequencyScore_member.
Qed.

Lemma frequencyScore_member_bounds_witness :
  10037 ∈ samplePrimes ∧
  5 * N.of_nat (length samplePrimes) < 2 ^ 64 ∧
  Frequency.evaluateGuess 10037 (Frequency.findDigitFrequencyPerPosition samplePrimes 5)
  = Ok 17 ∧
  ∃ score,
    Frequency.evaluateGuess 10037 (Frequency.findDigitFrequencyPerPosition samplePrimes 5)
    = Ok score ∧
    5 ≤ score ∧ score ≤ 5 * N.of_nat (length samplePrimes).
Proof.
  assert (10037 ∈ samplePrimes) as Hin.
  { do 3 apply list_elem_of_further. apply list_elem_of_here. }
  assert (5 * N.of_nat (length samplePrimes) < 2 ^ 64) as Hfit by reflexivity.
  split; [exact Hin|]. split; [exact Hfit|]. split; [vm_compute; reflexivity|].
  exact (frequencyScore_member_bounds samplePrimes 10037 Hin Hfit).
Defined.

(** ** Simulation heuristic: the score and the selected guess *)

(** X16. On a list shorter than [2^32], [evaluateGuess] of the simulation
    heuristic returns the sum, over the candidates taken as the solution, of
    the numbers of candidates the filter leaves; the sum is at most the
    square of the number of candidates, and at least 1 for a guess that is
    itself a candidate. *)
Theorem simulation_evaluateGuess_score (candidates : list N) (guess : N) :
  N.of_nat (length candidates) < 2 ^ 32 →
  Simulation.evaluateGuess guess candidates
  = Ok (sumOver (remainingAfter candidates guess) candidates) ∧
  sumOver (remainingAfter candidates guess) candidates
  ≤ N.of_nat (length candidates) * N.of_nat (length candidates) ∧
  (guess ∈ candidates → 1 ≤ sumOver (remainingAfter candidates guess) candidates).
Proof.
  intros Hlen. split; [by apply simulation_evaluateGuess_sum|].
  split; [apply simulationScore_bound|].
  intros Hg. pose proof (simulationScore_pos candidates guess Hg) as Hpos.
  unfold simulationScore in Hpos. lia.
Qed.

Lemma simulation_evaluateGuess_score_witness :
  N.of_nat (length samplePrimes) < 2 ^ 32 ∧
  Simulation.evaluateGuess 10009 samplePrimes
  = Ok (sumOver (remainingAfter samplePrimes 10009) samplePrimes).
Proof.
  split; [reflexivity|].
  apply (simulation_evaluateGuess_score samplePrimes 10009). reflexivity.
Defined.

(** X17. On a list shorter than [2^32] the selector of the simulation
    heuristic returns the last candidate of the list, and 0 when the list is
    empty: every score exceeds the 0 that [bestGuessValue] keeps. *)
Theorem simulation_findBestGuess_returns_last (candidates : list N) :
  N.of_nat (length candidates) < 2 ^ 32 →
  Simulation.findBestGuess candidates = Ok (List.last candidates 0).
Proof. apply simulation_findBestGuess_last. Qed.

Lemma simulation_findBestGuess_returns_last_witness :
  N.of_nat (length samplePrimes) < 2 ^ 32 ∧
  Simulation.findBestGuess samplePrimes = Ok (List.last samplePrimes 0) ∧
  List.last samplePrimes 0 = 10039.
Proof.
  split; [reflexivity|]. split; [|reflexivity].
  apply (simulation_findBestGuess_returns_last samplePrimes). reflexivity.
Defined.

(** ** Reading the feedback *)

Lemma tokenKind_valid (text : string) (k : feedbackType) :
  tokenKind text = Some k →
  k = feedbackTypeCorrect ∨ k = feedbackTypePresent ∨ k = feedbackTypeAbsent.
Proof.
  unfold tokenKind. repeat case_decide; intros [= <-]; auto.
Qed.

Lemma tokenKinds_valid (stdin : list string) (k : feedbackType) :
  k ∈ tokenKinds stdin →
  k = feedbackTypeCorrect ∨ k = feedbackTypePresent ∨ k = feedbackTypeAbsent.
Proof.
  unfold tokenKinds. intros (text & _ & Hk)%list_elem_of_omap.
  by eapply tokenKind_valid.
Qed.

(** The retry loop skips the lines that are no token and stops at the first
    one that is. *)
Lemma readToken_spec (guessDigit : N) (stdin : list string) :
  match tokenKinds stdin with
  | [] => readToken guessDigit stdin = None
  | k :: ks => ∃ rest, readToken guessDigit stdin = Some (mkFeedback guessDigit k, rest)
                       ∧ tokenKinds rest = ks
  end.
Proof.
  induction stdin as [|text stdin IH]; [done|].
  unfold tokenKinds in *. cbn [omap list_omap readToken]. unfold tokenKind at 1.
  destruct (decide (text = "c")); [by eexists|].
  destruct (decide (text = "p")); [by eexists|].
  destruct (decide (text = "a")); [by eexists|].
  exact IH.
Qed.

Lemma reverse_seq_S (k : nat) : reverse (seq 0 (S k)) = k :: reverse (seq 0 k).
Proof. by rewrite seq_S, reverse_app. Qed.

(** The loop over the positions [k - 1] down to 0. *)
Lemma readFeedbackLoop_spec (guessDigits : list N) (k : nat)
    (result : list feedback) (stdin : list string) :
  (k ≤ length result)%nat →
  ((length (tokenKinds stdin) < k)%nat →
   readFeedbackLoop guessDigits (reverse (seq 0 k)) result stdin = None) ∧
  ((k ≤ length (tokenKinds stdin))%nat →
   ∃ result' rest,
     readFeedbackLoop guessDigits (reverse (seq 0 k)) result stdin = Some (result', rest)
     ∧ length result' = length result
     ∧ tokenKinds rest = drop k (tokenKinds stdin)
     ∧ ∀ i, (i < length result)%nat →
         result' !!! i
         = if decide (i < k)%nat
           then mkFeedback (guessDigits !!! i) (tokenKinds stdin !!! (k - 1 - i)%nat)
           else result !!! i).
Proof.
  revert result stdin. induction k as [|k IH]; intros result stdin Hk.
  - split; [lia|]. intros _. exists result, stdin. cbn.
    split; [done|]. split; [done|]. split; [done|]. intros i Hi.
    by rewrite decide_False by lia.
  - rewrite reverse_seq_S. cbn [readFeedbackLoop].
    pose proof (readToken_spec (guessDigits !!! k) stdin) as Htoken.
    destruct (tokenKinds stdin) as [|t ks] eqn:Hkinds.
    + rewrite Htoken. split; [done|]. simpl. lia.
    + destruct Htoken as (rest1 & -> & Hrest1). cbn [mbind option_bind].
      destruct (IH (<[k := mkFeedback (guessDigits !!! k) t]> result) rest1)
        as [Hnone Hsome]; [rewrite length_insert; lia|].
      rewrite Hrest1 in Hnone, Hsome. cbn [length]. split.
      * intros Hshort. apply Hnone. lia.
      * intros Hlong. destruct Hsome as (result' & rest & -> & Hlen & Hdrop & Hentries);
          [lia|].
        exists result', rest. rewrite length_insert in Hlen, Hentries.
        split; [done|]. split; [done|]. split; [done|].
        intros i Hi. rewrite (Hentries i Hi).
        destruct (decide (i < k)%nat) as [Hik|Hik].
        -- rewrite decide_True by lia. f_equal.
           replace (S k - 1 - i)%nat with (S (k - 1 - i)) by lia. done.
        -- destruct (decide (i = k)) as [->|Hne].
           ++ rewrite decide_True by lia. rewrite list_lookup_total_insert_eq by lia.
              f_equal. by replace (S k - 1 - k)%nat with 0%nat by lia.
           ++ rewrite decide_False by lia. by rewrite list_lookup_total_insert_ne.
Qed.

Lemma readFeedbackForDigits_tokens (guessDigits : list N) (stdin : list string) :
  ((length (tokenKinds stdin) < length guessDigits)%nat →
   readFeedbackForDigits guessDigits stdin = None) ∧
  ((length guessDigits ≤ length (tokenKinds stdin))%nat →
   readFeedbackForDigits guessDigits stdin
   = Some ((λ i, mkFeedback (guessDigits !!! i)
                   (tokenKinds stdin !!! (length guessDigits - 1 - i)%nat))
             <$> seq 0 (length guessDigits))).
Proof.
  unfold readFeedbackForDigits. cbv zeta.
  destruct (readFeedbackLoop_spec guessDigits (length guessDigits)
              (replicate (length guessDigits) feedback_zero) stdin)
    as [Hnone Hsome]; [by rewrite length_replicate|].
  split; [intros Hshort; by rewrite Hnone|]. intros Hlong.
  destruct (Hsome Hlong) as (result' & rest & -> & Hlen & Hdrop & Hentries).
  cbn. f_equal.
  rewrite length_replicate in Hlen, Hentries.
  apply list_eq_tabulate; [done|]. intros i Hi.
  rewrite (Hentries i Hi). by rewrite decide_True.
Qed.

(** X18. [readFeedbackForDigits] takes the tokens [c], [p], [a] among the
    lines its reader reads, in the order they come, skipping every other
    line. It returns once it has found one token per digit, the first token
    going to the last position (the leading digit) and so on down to
    position 0; each entry carries the digit of the guess at its position.
    On an input with fewer tokens than digits it never returns. *)
Theorem readFeedbackForDigits_spec (guessDigits : list N) (stdin : list string) :
  ((length (tokenKinds stdin) < length guessDigits)%nat →
   readFeedbackForDigits guessDigits stdin = None) ∧
  ((length guessDigits ≤ length (tokenKinds stdin))%nat →
   readFeedbackForDigits guessDigits stdin
   = Some ((λ i, mkFeedback (guessDigits !!! i)
                   (tokenKinds stdin !!! (length guessDigits - 1 - i)%nat))
             <$> seq 0 (length guessDigits))).
Proof. apply readFeedbackForDigits_tokens. Qed.

Lemma readFeedbackForDigits_spec_witness :
  (length (getDigits 123 3) ≤ length (tokenKinds ["c"; "x"; ""; "a"; "p"; "c"]))%nat ∧
  readFeedbackForDigits (getDigits 123 3) ["c"; "x"; ""; "a"; "p"; "c"]
  = Some [mkFeedback 3 feedbackTypePresent; mkFeedback 2 feedbackTypeAbsent;
          mkFeedback 1 feedbackTypeCorrect] ∧
  (length (tokenKinds ["c"; "yes"]) < length (getDigits 123 3))%nat ∧
  readFeedbackForDigits (getDigits 123 3) ["c"; "yes"] = None.
Proof.
  split; [vm_compute; lia|]. split; [reflexivity|]. split; [vm_compute; lia|].
  apply (readFeedbackForDigits_spec (getDigits 123 3) ["c"; "yes"]).
  vm_compute. lia.
Defined.

(** The reports that [readFeedbackForDigits] returns. *)
Lemma readFeedbackForDigits_report (guessDigits : list N) (stdin : list string)
    (feedbackPerDigit : list feedback) :
  readFeedbackForDigits guessDigits stdin = Some feedbackPerDigit →
  length feedbackPerDigit = length guessDigits ∧
  Forall validKind feedbackPerDigit ∧
  ∀ i f, feedbackPerDigit !! i = Some f → digit f = guessDigits !!! i.
Proof.
  intros Hread. destruct (readFeedbackForDigits_tokens guessDigits stdin) as [Hnone Hsome].
  destruct (decide (length guessDigits ≤ length (tokenKinds stdin))%nat) as [Hlong|Hshort].
  - rewrite (Hsome Hlong) in Hread. injection Hread as <-.
    split; [by rewrite length_fmap, length_seq|]. split.
    + apply Forall_fmap, Forall_seq. intros i Hi. unfold validKind. simpl.
      apply (tokenKinds_valid stdin), list_elem_of_lookup_total_2. lia.
    + intros i f Hi. rewrite list_lookup_fmap in Hi.
      destruct (seq 0 (length guessDigits) !! i) as [i'|] eqn:Hseq; [|done].
      apply lookup_seq in Hseq as [-> _]. by injection Hi as <-.
  - rewrite Hnone in Hread by lia. done.
Qed.

(** X19. Whatever the player types, a report that [readFeedbackForDigits]
    returns for a 5-digit guess is accepted by the filter: the filter returns
    a list, it neither panics nor reaches the exit with code 2. *)
Theorem readFeedbackForDigits_then_filter (bestGuess : N) (stdin : list string)
    (feedbackPerDigit : list feedback) (candidates : list N) :
  readFeedbackForDigits (getDigits bestGuess 5) stdin = Some feedbackPerDigit →
  wellFormedReport feedbackPerDigit ∧
  ∃ newCandidates,
    incorporateFeedback feedbackPerDigit candidates = Ok newCandidates ∧
    newCandidates `sublist_of` candidates.
Proof.
  intros Hread.
  destruct (readFeedbackForDigits_report _ _ _ Hread) as (Hlen & Hvalid & _).
  rewrite length_getDigits_5 in Hlen.
  split; [done|]. eexists. split; [apply incorporateFeedback_filter; [done|lia]|].
  apply filter_sublist.
Qed.

Lemma readFeedbackForDigits_then_filter_witness :
  readFeedbackForDigits (getDigits 10007 5) ["c"; "a"; "oops"; "a"; "a"; "p"]
  = Some [mkFeedback 7 feedbackTypePresent; mkFeedback 0 feedbackTypeAbsent;
          mkFeedback 0 feedbackTypeAbsent; mkFeedback 0 feedbackTypeAbsent;
          mkFeedback 1 feedbackTypeCorrect] ∧
  ∃ newCandidates,
    incorporateFeedback
      [mkFeedback 7 feedbackTypePresent; mkFeedback 0 feedbackTypeAbsent;
       mkFeedback 0 feedbackTypeAbsent; mkFeedback 0 feedbackTypeAbsent;
       mkFeedback 1 feedbackTypeCorrect] samplePrimes = Ok newCandidates ∧
    newCandidates `sublist_of` samplePrimes.
Proof.
  split; [reflexivity|].
  apply (readFeedbackForDigits_then_filter 10007
           ["c"; "a"; "oops"; "a"; "a"; "p"] _ samplePrimes).
  reflexivity.
Defined.

(** ** The program: first candidates, one turn, the loop *)

Lemma noDivisorFrom_spec (count : nat) (d p q : N) :
  noDivisorFrom count d p = true →
  d ≤ q → q < d + N.of_nat count → ¬ N.divide q p.
Proof.
  revert d. induction count as [|count IH]; intros d Hno Hdq Hq; [lia|].
  cbn [noDivisorFrom] in Hno. apply andb_true_iff in Hno as [Hd Hrest].
  destruct (decide (q = d)) as [->|Hne].
  - apply negb_true_iff, N.eqb_neq in Hd. by rewrite <- N.Lcm0.mod_divide.
  - apply (IH (N.succ d)); [done|lia|lia].
Qed.

Lemma elem_of_getPrimes (from to p : N) :
  p ∈ getPrimesNat from to ↔ isPrime p ∧ from ≤ p ∧ p < to.
Proof.
  unfold getPrimesNat. cbv zeta.
  rewrite list_elem_of_In, List.filter_In, <- list_elem_of_In.
  rewrite elem_of_sieve, bool_decide_eq_true. tauto.
Qed.

Lemma length_getPrimes (from to : N) :
  N.of_nat (length (getPrimesNat from to)) ≤ to.
Proof.
  unfold getPrimesNat. cbv zeta.
  pose proof (sublist_length _ _
    (filter_sublist (λ p, bool_decide (from ≤ p)) (sieveNat to))) as Hsub.
  rewrite sieve_spec in Hsub |- *. rewrite length_fmap in Hsub.
  assert (length (List.filter primeb (seq 2 (N.to_nat to - 2))) ≤ N.to_nat to - 2)%nat
    as Hfilter.
  { pose proof (List.filter_length_le primeb (seq 2 (N.to_nat to - 2))) as Hle.
    by rewrite length_seq in Hle. }
  lia.
Qed.

Lemma isPrime_10007 : isPrime 10007.
Proof.
  split; [lia|]. intros d Hd2 Hd.
  apply (noDivisorFrom_spec (N.to_nat 10005) 2 10007); [vm_compute; reflexivity|lia|lia].
Qed.

Lemma getPrimes_main_nonempty : getPrimesNat 10000 100000 ≠ [].
Proof.
  assert (10007 ∈ getPrimesNat 10000 100000) as Hin.
  { apply elem_of_getPrimes. split; [apply isPrime_10007|]. lia. }
  intros Hempty. rewrite Hempty in Hin. by apply elem_of_nil in Hin.
Qed.

Lemma initial_candidates_nat :
  10007 ∈ getPrimesNat 10000 100000 ∧
  NoDup (getPrimesNat 10000 100000) ∧
  ∀ p, p ∈ getPrimesNat 10000 100000 →
    isPrime p ∧ 10000 ≤ p ∧ p < 100000 ∧
    horner (getDigits p 5) = p ∧
    getDigits p 5 !! 4%nat = Some (p / 10000) ∧ 1 ≤ p / 10000 ∧ p / 10000 ≤ 9.
Proof.
  split; [|split].
  - apply elem_of_getPrimes. split; [apply isPrime_10007|]. lia.
  - apply StronglySorted_lt_NoDup. unfold getPrimesNat.
    apply StronglySorted_filter, sieve_sorted.
  - intros p (Hprime & Hlow & Hhigh)%elem_of_getPrimes.
    split; [done|]. split; [done|]. split; [done|].
    rewrite getDigits_5. split; [|split; [|split]].
    + rewrite horner_digitsFrom. by apply N.mod_small.
    + rewrite lookup_digitsFrom by lia. f_equal.
      change (10 ^ N.of_nat 4) with 10000. apply N.mod_small.
      apply N.Div0.div_lt_upper_bound. lia.
    + apply N.div_le_lower_bound; lia.
    + assert (p / 10000 < 10); [|lia].
      apply N.Div0.div_lt_upper_bound. lia.
Qed.

Lemma getPrimes_main : getPrimes 10000 100000 = Ok (getPrimesNat 10000 100000).
Proof. apply getPrimes_in_range. vm_compute. discriminate. Qed.

(** X20. The call [getPrimes(10000, 100000)] of [main] returns. The
    candidates it returns are not empty (10007 is one), have no duplicates,
    and each is a prime with exactly 5 decimal digits: its leading digit,
    stored last, is not 0, and Horner's rule on its digits gives the number
    back. *)
Theorem initial_candidates_five_digits :
  ∃ candidates,
    getPrimes 10000 100000 = Ok candidates ∧
    10007 ∈ candidates ∧
    NoDup candidates ∧
    ∀ p, p ∈ candidates →
      isPrime p ∧ 10000 ≤ p ∧ p < 100000 ∧
      horner (getDigits p 5) = p ∧
      getDigits p 5 !! 4%nat = Some (p / 10000) ∧ 1 ≤ p / 10000 ∧ p / 10000 ≤ 9.
Proof.
  exists (getPrimesNat 10000 100000). split; [exact getPrimes_main|].
  exact initial_candidates_nat.
Qed.

Lemma initial_candidates_five_digits_witness :
  ∃ candidates,
    getPrimes 10000 100000 = Ok candidates ∧
    10007 ∈ candidates ∧
    horner (getDigits 10007 5) = 10007 ∧
    getDigits 10007 5 !! 4%nat = Some (10007 / 10000).
Proof.
  destruct initial_candidates_five_digits as (candidates & Hrun & Hin & _ & Hall).
  exists candidates. split; [exact Hrun|]. split; [exact Hin|].
  destruct (Hall 10007 Hin) as (_ & _ & _ & Hhorner & Hlead & _).
  split; [exact Hhorner|exact Hlead].
Defined.

(** X21. [main] reaches its loop under either heuristic: the call of
    [getPrimes] and the first call of the selector return, and the guess is
    one of the candidates. *)
Theorem mainStart_returns :
  ∃ candidates,
    getPrimes 10000 100000 = Ok candidates ∧
    (∃ bestGuess,
       Frequency.mainStart = Ok (candidates, bestGuess) ∧ bestGuess ∈ candidates) ∧
    (∃ bestGuess,
       Simulation.mainStart = Ok (candidates, bestGuess) ∧ bestGuess ∈ candidates).
Proof.
  exists (getPrimesNat 10000 100000). split; [exact getPrimes_main|].
  unfold Frequency.mainStart, Simulation.mainStart. rewrite getPrimes_main.
  pose proof getPrimes_main_nonempty as Hne.
  pose proof (length_getPrimes 10000 100000) as Hlen.
  revert Hne Hlen. generalize (getPrimesNat 10000 100000) as candidates.
  intros candidates Hne Hlen. rewrite !bind_Ok. cbv zeta. split.
  - destruct (frequency_selectBestGuess_member candidates Hne)
      as (bestGuess & Hbest & Hin).
    exists bestGuess. split; [|exact Hin].
    unfold Frequency.selectBestGuess in Hbest. rewrite Hbest. reflexivity.
  - exists (List.last candidates 0). split.
    + rewrite simulation_findBestGuess_last; [reflexivity|].
      eapply N.le_lt_trans; [exact Hlen|reflexivity].
    + by apply last_elem_of.
Qed.

Lemma all_not_true (slice : list feedback) (predicate : feedback → bool) :
  all slice predicate ≠ true → all slice predicate = false.
Proof. by destruct (all slice predicate). Qed.

Lemma frequency_round (candidates : list N) (bestGuess : N)
    (feedbackPerDigit : list feedback) :
  wellFormedReport feedbackPerDigit →
  ∃ newCandidates,
    incorporateFeedback feedbackPerDigit candidates = Ok newCandidates ∧
    newCandidates `sublist_of` candidates ∧
    ((all feedbackPerDigit (λ f, bool_decide (fbType f = feedbackTypeCorrect)) = true
      ∧ Frequency.mainRound candidates bestGuess feedbackPerDigit = Ok (Solved bestGuess))
     ∨ (all feedbackPerDigit (λ f, bool_decide (fbType f = feedbackTypeCorrect)) = false
        ∧ newCandidates = []
        ∧ Frequency.mainRound candidates bestGuess feedbackPerDigit = Exit 1)
     ∨ (all feedbackPerDigit (λ f, bool_decide (fbType f = feedbackTypeCorrect)) = false
        ∧ ∃ bestGuess', bestGuess' ∈ newCandidates
            ∧ Frequency.mainRound candidates bestGuess feedbackPerDigit
              = Ok (NextRound newCandidates bestGuess'))).
Proof.
  intros [Hvalid Hlen].
  exists (List.filter (consistentb feedbackPerDigit) candidates).
  assert (incorporateFeedback feedbackPerDigit candidates
          = Ok (List.filter (consistentb feedbackPerDigit) candidates)) as Hfilter
    by (apply incorporateFeedback_filter; [done|lia]).
  split; [done|]. split; [apply filter_sublist|].
  unfold Frequency.mainRound.
  destruct (all feedbackPerDigit _) eqn:Hall; [left; done|right].
  rewrite Hfilter, bind_Ok. cbv zeta.
  destruct (List.filter (consistentb feedbackPerDigit) candidates) as [|c rest] eqn:Hl.
  - left. done.
  - right. split; [done|]. rewrite decide_False by done.
    destruct (frequency_selectBestGuess_member (c :: rest)) as (b & Hb & Hin); [done|].
    exists b. split; [done|]. unfold Frequency.selectBestGuess in Hb. by rewrite Hb.
Qed.

(** X22. One turn of [main] under the frequency heuristic, on a report of
    the three kinds over 5 positions, ends in one of three ways and in no
    other: the report is all-Correct and the guess is the solution; the
    filter leaves no candidate and the program exits with code 1; or the
    turn hands on the filtered candidates, a non-empty part of the previous
    ones, with a next guess taken from them. It never panics and never exits
    with code 2. *)
Theorem frequency_mainRound_outcome (candidates : list N) (bestGuess : N)
    (feedbackPerDigit : list feedback) :
  wellFormedReport feedbackPerDigit →
  ∃ newCandidates,
    incorporateFeedback feedbackPerDigit candidates = Ok newCandidates ∧
    newCandidates `sublist_of` candidates ∧
    ((all feedbackPerDigit (λ f, bool_decide (fbType f = feedbackTypeCorrect)) = true
      ∧ Frequency.mainRound candidates bestGuess feedbackPerDigit = Ok (Solved bestGuess))
     ∨ (all feedbackPerDigit (λ f, bool_decide (fbType f = feedbackTypeCorrect)) = false
        ∧ newCandidates = []
        ∧ Frequency.mainRound candidates bestGuess feedbackPerDigit = Exit 1)
     ∨ (all feedbackPerDigit (λ f, bool_decide (fbType f = feedbackTypeCorrect)) = false
        ∧ ∃ bestGuess', bestGuess' ∈ newCandidates
            ∧ Frequency.mainRound candidates bestGuess feedbackPerDigit
              = Ok (NextRound newCandidates bestGuess'))).
Proof. apply frequency_round. Qed.

Lemma sampleReport_wellFormed : wellFormedReport sampleReport.
Proof. split; [exact sampleReport_valid|reflexivity]. Defined.

Lemma frequency_mainRound_outcome_witness :
  wellFormedReport sampleReport ∧
  Frequency.mainRound sampleCandidates 41125 sampleReport
  = Ok (NextRound [41124; 47127; 41124] 41124) ∧
  ∃ newCandidates,
    incorporateFeedback sampleReport sampleCandidates = Ok newCandidates ∧
    newCandidates `sublist_of` sampleCandidates.
Proof.
  split; [exact sampleReport_wellFormed|]. split; [vm_compute; reflexivity|].
  destruct (frequency_mainRound_outcome sampleCandidates 41125 sampleReport
              sampleReport_wellFormed) as (newCandidates & Hfilter & Hsub & _).
  exists newCandidates. split; [exact Hfilter|exact Hsub].
Defined.

(** X23. The same for one turn of [main] under the simulation heuristic, on
    candidate lists shorter than [2^32]; the next guess is the last of the
    filtered candidates. *)
Theorem simulation_mainRound_outcome (candidates : list N) (bestGuess : N)
    (feedbackPerDigit : list feedback) :
  wellFormedReport feedbackPerDigit →
  N.of_nat (length candidates) < 2 ^ 32 →
  ∃ newCandidates,
    incorporateFeedback feedbackPerDigit candidates = Ok newCandidates ∧
    newCandidates `sublist_of` candidates ∧
    ((all feedbackPerDigit (λ f, bool_decide (fbType f = feedbackTypeCorrect)) = true
      ∧ Simulation.mainRound candidates bestGuess feedbackPerDigit = Ok (Solved bestGuess))
     ∨ (all feedbackPerDigit (λ f, bool_decide (fbType f = feedbackTypeCorrect)) = false
        ∧ newCandidates = []
        ∧ Simulation.mainRound candidates bestGuess feedbackPerDigit = Exit 1)
     ∨ (all feedbackPerDigit (λ f, bool_decide (fbType f = feedbackTypeCorrect)) = false
        ∧ newCandidates ≠ []
        ∧ Simulation.mainRound candidates bestGuess feedbackPerDigit
          = Ok (NextRound newCandidates (List.last newCandidates 0))
        ∧ List.last newCandidates 0 ∈ newCandidates)).
Proof.
  intros [Hvalid Hlen] Hshort.
  exists (List.filter (consistentb feedbackPerDigit) candidates).
  assert (incorporateFeedback feedbackPerDigit candidates
          = Ok (List.filter (consistentb feedbackPerDigit) candidates)) as Hfilter
    by (apply incorporateFeedback_filter; [done|lia]).
  pose proof (filter_sublist (consistentb feedbackPerDigit) candidates) as Hsub.
  pose proof (sublist_length _ _ Hsub) as Hle.
  split; [done|]. split; [done|].
  unfold Simulation.mainRound.
  destruct (all feedbackPerDigit _) eqn:Hall; [left; done|right].
  rewrite Hfilter, bind_Ok.
  destruct (List.filter (consistentb feedbackPerDigit) candidates) as [|c rest] eqn:Hl.
  - left. done.
  - right. split; [done|]. split; [done|]. rewrite decide_False by done.
    rewrite simulation_findBestGuess_last by lia. rewrite bind_Ok.
    split; [done|]. by apply last_elem_of.
Qed.

Lemma simulation_mainRound_outcome_witness :
  wellFormedReport sampleReport ∧
  N.of_nat (length sampleCandidates) < 2 ^ 32 ∧
  Simulation.mainRound sampleCandidates 41125 sampleReport
  = Ok (NextRound [41124; 47127; 41124] 41124) ∧
  ∃ newCandidates,
    incorporateFeedback sampleReport sampleCandidates = Ok newCandidates ∧
    newCandidates `sublist_of` sampleCandidates.
Proof.
  assert (N.of_nat (length sampleCandidates) < 2 ^ 32) as Hshort by reflexivity.
  split; [exact sampleReport_wellFormed|]. split; [exact Hshort|].
  split; [vm_compute; reflexivity|].
  destruct (simulation_mainRound_outcome sampleCandidates 41125 sampleReport
              sampleReport_wellFormed Hshort) as (newCandidates & Hfilter & Hsub & _).
  exists newCandidates. split; [exact Hfilter|exact Hsub].
Defined.

(** X24. Over any number of turns of [main] under the frequency heuristic,
    on reports of the three kinds over 5 positions: the program never panics
    and never exits with code 2; if it exits, the code is 1; a solution it
    announces is one of the candidates it started from; and the candidates
    it holds are a part of those it started from and contain the current
    guess. *)
Theorem frequency_mainLoop_safe (reports : list (list feedback))
    (candidates : list N) (bestGuess : N) :
  Forall wellFormedReport reports →
  bestGuess ∈ candidates →
  safeRun candidates (Frequency.mainLoop reports candidates bestGuess).
Proof.
  intros Hreports. revert candidates bestGuess.
  induction Hreports as [|feedbackPerDigit later Hwf Hlater IH];
    intros candidates bestGuess Hbest.
  - simpl. done.
  - cbn [Frequency.mainLoop].
    destruct (frequency_round candidates bestGuess feedbackPerDigit Hwf)
      as (newCandidates & _ & Hsub & [[_ ->]|[(_ & _ & ->)|(_ & b & Hb & ->)]]).
    + rewrite bind_Ok. done.
    + done.
    + rewrite bind_Ok. specialize (IH newCandidates b Hb).
      destruct (Frequency.mainLoop later newCandidates b) as [[s|c' b']| |code];
        simpl in IH |- *.
      * by eapply elem_of_sublist.
      * destruct IH as [Hsub' Hin]. split; [by etrans|done].
      * done.
      * done.
Qed.

Lemma frequency_mainLoop_safe_witness :
  Forall wellFormedReport [sampleReport; sampleReport] ∧
  41125 ∈ sampleCandidates ∧
  Frequency.mainLoop [sampleReport; sampleReport] sampleCandidates 41125
  = Ok (NextRound [41124; 47127; 41124] 41124) ∧
  safeRun sampleCandidates
    (Frequency.mainLoop [sampleReport; sampleReport] sampleCandidates 41125).
Proof.
  assert (Forall wellFormedReport [sampleReport; sampleReport]) as Hreports.
  { repeat (apply Forall_cons_2; [exact sampleReport_wellFormed|]). apply Forall_nil_2. }
  assert (41125 ∈ sampleCandidates) as Hin.
  { apply list_elem_of_further, list_elem_of_here. }
  split; [exact Hreports|]. split; [exact Hin|]. split; [vm_compute; reflexivity|].
  exact (frequency_mainLoop_safe [sampleReport; sampleReport] sampleCandidates 41125
           Hreports Hin).
Defined.

Lemma absent_entry_rejects_guess (feedbackPerDigit : list feedback) (guess : N)
    (i : nat) (f : feedback) :
  Forall validKind feedbackPerDigit →
  (length feedbackPerDigit ≤ 5)%nat →
  feedbackPerDigit !! i = Some f →
  fbType f = feedbackTypeAbsent →
  digit f = getDigits guess 5 !!! i →
  consistentb feedbackPerDigit guess = false.
Proof.
  intros Hvalid Hlen Hi Habsent Hdigit.
  destruct (consistentb feedbackPerDigit guess) eqn:Hkeep; [|done]. exfalso.
  apply consistentb_spec in Hkeep; [|done].
  destruct (Hkeep i f Hi) as (_ & _ & Hno). specialize (Hno Habsent i).
  pose proof (lookup_lt_Some _ _ _ Hi) as Hlt.
  destruct Hno as (f' & Hf' & Hc).
  - rewrite Hdigit. apply list_lookup_lookup_total_lt.
    rewrite length_getDigits_5. lia.
  - rewrite Hi in Hf'. injection Hf' as <-. rewrite Hc in Habsent. discriminate.
Qed.

(** X25. A guess for which the player reports some digit Absent is not
    proposed again in the next turn: when [readFeedbackForDigits] returns
    such a report for the guess and the turn goes on, the guess is not among
    the new candidates, so the new guess is another number. *)
Theorem frequency_mainRound_drops_guess (candidates newCandidates : list N)
    (bestGuess bestGuess' : N) (stdin : list string)
    (feedbackPerDigit : list feedback) (i : nat) (f : feedback) :
  readFeedbackForDigits (getDigits bestGuess 5) stdin = Some feedbackPerDigit →
  feedbackPerDigit !! i = Some f →
  fbType f = feedbackTypeAbsent →
  Frequency.mainRound candidates bestGuess feedbackPerDigit
  = Ok (NextRound newCandidates bestGuess') →
  (bestGuess ∉ newCandidates) ∧ (bestGuess' ≠ bestGuess).
Proof.
  intros Hread Hi Habsent Hround.
  destruct (readFeedbackForDigits_report _ _ _ Hread) as (Hlen & Hvalid & Hdigits).
  rewrite length_getDigits_5 in Hlen.
  assert (wellFormedReport feedbackPerDigit) as Hwf by done.
  destruct (frequency_round candidates bestGuess feedbackPerDigit Hwf)
    as (l & Hfilter & _ & [[_ Hr]|[(_ & _ & Hr)|(_ & b & Hb & Hr)]]);
    rewrite Hr in Hround; try discriminate Hround.
  injection Hround as -> ->.
  rewrite incorporateFeedback_filter in Hfilter by (done || lia).
  injection Hfilter as <-.
  assert (bestGuess ∉ List.filter (consistentb feedbackPerDigit) candidates) as Hout.
  { intros [_ Hkeep]%list_elem_of_In%List.filter_In.
    rewrite (absent_entry_rejects_guess feedbackPerDigit bestGuess i f) in Hkeep;
      [done|done|lia|done|done|by apply Hdigits]. }
  split; [done|]. intros ->. done.
Qed.

Lemma frequency_mainRound_drops_guess_witness :
  readFeedbackForDigits (getDigits 10007 5) ["c"; "a"; "a"; "a"; "p"]
  = Some [mkFeedback 7 feedbackTypePresent; mkFeedback 0 feedbackTypeAbsent;
          mkFeedback 0 feedbackTypeAbsent; mkFeedback 0 feedbackTypeAbsent;
          mkFeedback 1 feedbackTypeCorrect] ∧
  Frequency.mainRound [10007; 11779; 17341] 10007
    [mkFeedback 7 feedbackTypePresent; mkFeedback 0 feedbackTypeAbsent;
     mkFeedback 0 feedbackTypeAbsent; mkFeedback 0 feedbackTypeAbsent;
     mkFeedback 1 feedbackTypeCorrect]
  = Ok (NextRound [11779; 17341] 11779) ∧
  (10007 ∉ [11779; 17341]) ∧ (11779 ≠ 10007).
Proof.
  assert (readFeedbackForDigits (getDigits 10007 5) ["c"; "a"; "a"; "a"; "p"]
          = Some [mkFeedback 7 feedbackTypePresent; mkFeedback 0 feedbackTypeAbsent;
                  mkFeedback 0 feedbackTypeAbsent; mkFeedback 0 feedbackTypeAbsent;
                  mkFeedback 1 feedbackTypeCorrect]) as Hread by reflexivity.
  assert (Frequency.mainRound [10007; 11779; 17341] 10007
            [mkFeedback 7 feedbackTypePresent; mkFeedback 0 feedbackTypeAbsent;
             mkFeedback 0 feedbackTypeAbsent; mkFeedback 0 feedbackTypeAbsent;
             mkFeedback 1 feedbackTypeCorrect]
          = Ok (NextRound [11779; 17341] 11779)) as Hround by (vm_compute; reflexivity).
  split; [exact Hread|]. split; [exact Hround|].
  exact (frequency_mainRound_drops_guess _ _ _ _ _ _ 1
           (mkFeedback 0 feedbackTypeAbsent) Hread eq_refl eq_refl Hround).
Defined.

(** X26. [getPrimes] of an empty range, [to <= from], returns the empty
    slice for [to] up to [2^62]; the sieve is still run up to [to], so for
    [to] from [2^63 + 2] on the call panics even then. *)
Theorem getPrimes_empty_range (from to : N) :
  to ≤ from →
  (to ≤ 2 ^ 62 → getPrimes from to = Ok []) ∧
  (2 ^ 63 + 2 ≤ to → getPrimes from to = Panic).
Proof.
  intros Hrange. split; [|apply getPrimes_too_large].
  intros Hto. rewrite getPrimes_in_range by done. f_equal.
  apply elem_of_nil_inv. intros p Hp.
  apply elem_of_getPrimes in Hp as (_ & Hlow & Hhigh). lia.
Qed.

Lemma getPrimes_empty_range_witness :
  (20 : N) ≤ 30 ∧ (20 : N) ≤ 2 ^ 62 ∧ getPrimes 30 20 = Ok [] ∧
  sieve 20 = Ok [2; 3; 5; 7; 11; 13; 17; 19] ∧
  2 ^ 63 + 2 ≤ 2 ^ 63 + 2 ∧ getPrimes (2 ^ 64 - 1) (2 ^ 63 + 2) = Panic.
Proof.
  assert ((20 : N) ≤ 30) as Hrange by lia.
  assert ((20 : N) ≤ 2 ^ 62) as Hsmall by (vm_compute; discriminate).
  assert ((2 : N) ^ 63 + 2 ≤ 2 ^ 64 - 1) as Hrange' by (vm_compute; discriminate).
  split; [exact Hrange|]. split; [exact Hsmall|].
  split; [exact (proj1 (getPrimes_empty_range 30 20 Hrange) Hsmall)|].
  split; [reflexivity|]. split; [lia|].
  exact (proj2 (getPrimes_empty_range (2 ^ 64 - 1) (2 ^ 63 + 2) Hrange') (N.le_refl _)).
Defined.


